(** * cloudflare-zlib Go binding: the streaming Reader and Writer of [zlib.go]

    The Go file drives a foreign DEFLATE engine (the [zs_*] functions of the
    C side) through fixed staging buffers.  The engine, the upstream source
    ([io.Reader]) and the downstream sink ([io.Writer]) are collaborators that
    the Go code only calls; they are interfaces here, and the Go functions are
    embedded over them, statement by statement. *)

From Stdlib Require Import ZArith List Bool Lia.
From Stdlib Require Import Strings.Byte.
Import ListNotations.
Open Scope Z_scope.

(** ** Machine integers and zlib status codes *)

(** [C.int(x)]: conversion of a Go [int] (64 bit) to a C [int] (32 bit, two's
    complement): the value wraps. *)
Definition C_int (x : Z) : Z := (x + 2 ^ 31) mod 2 ^ 32 - 2 ^ 31.

(** [len(s)] as a Go [int]. *)
Definition len {A : Type} (s : list A) : Z := Z.of_nat (length s).

Definition Z_OK : Z := 0.
Definition Z_STREAM_END : Z := 1.
Definition Z_ERRNO : Z := -1.
Definition Z_STREAM_ERROR : Z := -2.
Definition Z_DATA_ERROR : Z := -3.
Definition Z_MEM_ERROR : Z := -4.
Definition Z_BUF_ERROR : Z := -5.
Definition Z_VERSION_ERROR : Z := -6.


(** ** Errors *)

(** The values of Go's [error] interface that the file can see.  [nil] is
    [None] of [option error]. *)
Inductive error : Type :=
| EOF                          (* io.EOF *)
| ErrStream                    (* errors.New("zlib: stream error") *)
| ErrData                      (* errors.New("zlib: data error") *)
| ErrMem                       (* errors.New("zlib: mem error") *)
| ErrBuf                       (* errors.New("zlib: buf error") *)
| ErrVersion                   (* errors.New("zlib: version error") *)
| Errno (e : Z)                (* unix.Errno(e) *)
| ErrUnknown (r : Z)           (* fmt.Errorf("zlib: unknown error %d", r) *)
| ErrShortWrite (n l : Z)      (* fmt.Errorf("zlib: n=%d, outLen=%d", n, l) *)
| ErrIO (tag : nat).           (* an error made by the source or the sink *)

(** [err == io.EOF] *)
Definition is_EOF (e : error) : bool :=
  match e with EOF => true | _ => false end.

(** The map [zlibErrors]: [Some v] when the key is present ([v] may be nil). *)
Definition zlibErrors (r : Z) : option (option error) :=
  if r =? Z_OK then Some None
  else if r =? Z_STREAM_END then Some (Some EOF)
  else if r =? Z_ERRNO then Some None
  else if r =? Z_STREAM_ERROR then Some (Some ErrStream)
  else if r =? Z_DATA_ERROR then Some (Some ErrData)
  else if r =? Z_MEM_ERROR then Some (Some ErrMem)
  else if r =? Z_BUF_ERROR then Some (Some ErrBuf)
  else if r =? Z_VERSION_ERROR then Some (Some ErrVersion)
  else None.

(** [zlibReturnCodeToError]; [errno] is what [C.zs_get_errno()] answers. *)
Definition zlibReturnCodeToError (errno : Z) (r : Z) : option error :=
  if r =? 0 then None
  else if r =? Z_ERRNO then Some (Errno errno)
  else match zlibErrors r with
       | Some err => err
       | None => Some (ErrUnknown r)
       end.

(** ** Memory written by a callee *)

(** A callee that is handed a pointer to the start of [buf] and stores the
    bytes [w] there leaves [buf] with its first bytes replaced; the slice keeps
    its length. *)
Definition store (w buf : list byte) : list byte :=
  firstn (length buf) (w ++ skipn (length w) buf).

(** [make([]byte, n)] *)
Definition make (n : Z) : list byte := repeat x00 (Z.to_nat n).

(** ** Calls to the collaborators

    Every call that leaves the Go code is logged, in order, in a ghost field
    of the Reader and of the Writer. *)
Inductive call : Type :=
| InflateInit (ec : Z)
| Inflate (fresh : bool) (in_bytes : Z) (ret : Z) (inConsumed : Z)
| InflateReset (ret : Z)
| InflateEnd
| SrcRead (n : Z) (err : option error)
| DeflateInit (level : Z) (ec : Z)
| SetFinalizer
| Deflate (fresh : bool) (in_bytes : Z) (ret : Z)
| DeflateFinish (ret : Z)
| DeflateFlush (ret : Z)
| DeflateReset (ret : Z)
| DeflateEnd
| SinkWrite (data : list byte).

(** ** Results of a Go call *)

(** A call returns, panics, or is still running when the fuel of a loop is
    used up; each case carries the state of the receiver at that point. *)
Inductive outcome (S A : Type) : Type :=
| Done (a : A) (s : S)
| Panic (s : S)
| Timeout (s : S).
Arguments Done {S A} a s.
Arguments Panic {S A} s.
Arguments Timeout {S A} s.

Definition state_of {S A : Type} (o : outcome S A) : S :=
  match o with Done _ s => s | Panic s => s | Timeout s => s end.

(** ** The collaborators *)

(** The decompression side of the C wrapper.  [izs] is the content of the
    [zstream] block.  [zs_inflate zs in in_bytes outLen] answers
    [(ret, zs', w, outLen', inConsumed)]: [w] are the bytes stored at the
    [out] pointer, [outLen'] the value left in [*outLen]. *)
Class InflateEngine : Type := {
  izs : Type;
  zs_inflate_init : Z * izs;
  zs_inflate : izs -> option (list byte) -> Z -> Z -> Z * izs * list byte * Z * Z;
  zs_inflate_reset : izs -> Z * izs;
  zs_inflate_end : izs -> izs;
  zs_inflate_errno : izs -> Z
}.

(** The compression side of the C wrapper. *)
Class DeflateEngine : Type := {
  dzs : Type;
  zs_deflate_init : Z -> Z * dzs;
  zs_deflate : dzs -> option (list byte) -> Z -> Z -> Z * dzs * list byte * Z;
  zs_deflate_finish : dzs -> Z -> Z * dzs * list byte * Z;
  zs_deflate_flush : dzs -> Z -> Z * dzs * list byte * Z;
  zs_deflate_reset : dzs -> Z * dzs;
  zs_deflate_end : dzs -> dzs;
  zs_deflate_errno : dzs -> Z
}.

(** An upstream [io.Reader]: [src_read s l] is [Read(p)] with [len(p) = l];
    it answers the new state, the bytes stored in [p] (their number is [n])
    and the error. *)
Class Source : Type := {
  src : Type;
  src_read : src -> Z -> src * list byte * option error
}.

(** A downstream [io.Writer]: [snk_write k data] answers the new state, [n]
    and the error. *)
Class Sink : Type := {
  snk : Type;
  snk_write : snk -> list byte -> snk * Z * option error
}.

(** ** The Writer *)

Section WriterModel.
Context {DE : DeflateEngine} {SK : Sink}.

(** [type writer struct]; [w_calls] is the ghost log. *)
Record writer : Type := mkWriter {
  w_out : snk;
  w_zs : dzs;
  outBuf : list byte;
  w_err : option error;
  w_calls : list call
}.

Definition w_log (c : call) (z : writer) : writer :=
  mkWriter (w_out z) (w_zs z) (outBuf z) (w_err z) (w_calls z ++ [c]).

Definition w_set_out (k : snk) (z : writer) : writer :=
  mkWriter k (w_zs z) (outBuf z) (w_err z) (w_calls z).

(** The effect of an engine call on the receiver: new [zstream] content and
    the bytes the engine stored in the staging buffer. *)
Definition w_engine (zs' : dzs) (w : list byte) (z : writer) : writer :=
  mkWriter (w_out z) zs' (store w (outBuf z)) (w_err z) (w_calls z).

(** [NewWriterLevel]; [make] panics on a negative size, before there is a
    writer.  [None] is that panic; otherwise the writer (or nil) and the
    error. *)
Definition NewWriterLevel (w : snk) (level : Z) (bufSize : Z)
  : option (option writer * option error) :=
  if bufSize <? 0 then None
  else
    let '(ec, zs) := zs_deflate_init (C_int level) in
    let z := mkWriter w zs (make bufSize) None [DeflateInit (C_int level) ec] in
    if negb (ec =? 0)
    then Some (None, zlibReturnCodeToError (zs_deflate_errno zs) ec)
    else Some (Some (w_log SetFinalizer z), None).


(** [gcWriter] *)
Definition gcWriter (z : writer) : writer :=
  w_log DeflateEnd
    (mkWriter (w_out z) (zs_deflate_end (w_zs z)) (outBuf z) (w_err z) (w_calls z)).

(** [(z *writer) push] *)
Definition push (z : writer) (data : list byte) : option error * writer :=
  let '(k, n, err) := snk_write (w_out z) data in
  let z := w_log (SinkWrite data) (w_set_out k z) in
  match err with
  | Some e => (Some e, z)
  | None =>
      if n <? len data then (Some (ErrShortWrite n (len data)), z)
      else (None, z)
  end.

(** [nOut := len(z.outBuf) - int(outLen)] followed by
    [z.push(z.outBuf[:nOut])]; the slice expression panics unless
    [0 <= nOut <= cap(z.outBuf)]. *)
Definition push_outBuf (z : writer) (outLen : Z) : outcome writer (option error) :=
  let nOut := len (outBuf z) - outLen in
  if (nOut <? 0) || (len (outBuf z) <? nOut) then Panic z
  else
    let '(err, z) := push z (firstn (Z.to_nat nOut) (outBuf z)) in
    Done err z.

(** [(z *writer) Close]: one round of the [for] loop per unit of fuel.
    [&z.outBuf[0]] panics on an empty staging buffer. *)
Fixpoint writer_Close (fuel : nat) (z : writer) : outcome writer (option error) :=
  match fuel with
  | O => Timeout z
  | S fuel' =>
      if len (outBuf z) =? 0 then Panic z
      else
        let outLen := C_int (len (outBuf z)) in
        let '(ret, zs', w, outLen) := zs_deflate_finish (w_zs z) outLen in
        let z := w_log (DeflateFinish ret) (w_engine zs' w z) in
        if negb (ret =? 0) && negb (ret =? Z_STREAM_END)
        then Done (zlibReturnCodeToError (zs_deflate_errno (w_zs z)) ret) z
        else
          match push_outBuf z outLen with
          | Done (Some err) z => Done (Some err) z
          | Done None z =>
              if ret =? Z_STREAM_END then Done None z
              else writer_Close fuel' z
          | Panic z => Panic z
          | Timeout z => Timeout z
          end
  end.

(** The second [for] loop of [Write]: engine calls with no new input. *)
Fixpoint Write_loop (fuel : nat) (z : writer) : outcome writer (option error) :=
  match fuel with
  | O => Timeout z
  | S fuel' =>
      if len (outBuf z) =? 0 then Panic z
      else
        let outLen := C_int (len (outBuf z)) in
        let '(ret, zs', w, outLen) := zs_deflate (w_zs z) None 0 outLen in
        let z := w_log (Deflate false 0 ret) (w_engine zs' w z) in
        if negb (ret =? 0)
        then Done (zlibReturnCodeToError (zs_deflate_errno (w_zs z)) ret) z
        else
          match push_outBuf z outLen with
          | Done (Some err) z => Done (Some err) z
          | Done None z =>
              if outLen >? 0 then Done None z
              else Write_loop fuel' z
          | Panic z => Panic z
          | Timeout z => Timeout z
          end
  end.

(** [(z *writer) Write] *)
Definition writer_Write (fuel : nat) (z : writer) (input : list byte)
  : outcome writer (Z * option error) :=
  if len input =? 0 then Done (0, None) z
  else if len (outBuf z) =? 0 then Panic z
  else
    let outLen := C_int (len (outBuf z)) in
    let '(ret, zs', w, outLen) :=
      zs_deflate (w_zs z) (Some input) (C_int (len input)) outLen in
    let z := w_log (Deflate true (C_int (len input)) ret) (w_engine zs' w z) in
    if negb (ret =? 0)
    then Done (0, zlibReturnCodeToError (zs_deflate_errno (w_zs z)) ret) z
    else
      match push_outBuf z outLen with
      | Done (Some err) z => Done (0, Some err) z
      | Done None z =>
          if outLen >? 0 then Done (len input, None) z
          else
            match Write_loop fuel z with
            | Done (Some err) z => Done (0, Some err) z
            | Done None z => Done (len input, None) z
            | Panic z => Panic z
            | Timeout z => Timeout z
            end
      | Panic z => Panic z
      | Timeout z => Timeout z
      end.

(** [(z *writer) Flush] *)
Definition writer_Flush (z : writer) : outcome writer (option error) :=
  if len (outBuf z) =? 0 then Panic z
  else
    let outLen := C_int (len (outBuf z)) in
    let '(ret, zs', w, outLen) := zs_deflate_flush (w_zs z) outLen in
    let z := w_log (DeflateFlush ret) (w_engine zs' w z) in
    if ret =? Z_BUF_ERROR then Done None z
    else if negb (ret =? 0)
    then Done (zlibReturnCodeToError (zs_deflate_errno (w_zs z)) ret) z
    else push_outBuf z outLen.

(** [(z *writer) Reset] *)
Definition writer_Reset (z : writer) (w : snk) : option error * writer :=
  let '(ret, zs') := zs_deflate_reset (w_zs z) in
  let z := w_log (DeflateReset ret)
             (mkWriter (w_out z) zs' (outBuf z) (w_err z) (w_calls z)) in
  if negb (ret =? Z_OK)
  then (zlibReturnCodeToError (zs_deflate_errno (w_zs z)) ret, z)
  else (None, w_set_out w z).

End WriterModel.

(** ** The Reader *)

Section ReaderModel.
Context {IE : InflateEngine} {SR : Source}.

(** [type reader struct]; [r_calls] is the ghost log. *)
Record reader : Type := mkReader {
  r_in : src;
  inConsumed : bool;
  inEOF : bool;
  r_zs : izs;
  inBuf : list byte;
  r_err : option error;
  r_calls : list call
}.

Definition r_log (c : call) (z : reader) : reader :=
  mkReader (r_in z) (inConsumed z) (inEOF z) (r_zs z) (inBuf z) (r_err z)
           (r_calls z ++ [c]).

Definition r_set_err (e : option error) (z : reader) : reader :=
  mkReader (r_in z) (inConsumed z) (inEOF z) (r_zs z) (inBuf z) e (r_calls z).

Definition r_set_inEOF (b : bool) (z : reader) : reader :=
  mkReader (r_in z) (inConsumed z) b (r_zs z) (inBuf z) (r_err z) (r_calls z).

Definition r_set_inConsumed (b : bool) (z : reader) : reader :=
  mkReader (r_in z) b (inEOF z) (r_zs z) (inBuf z) (r_err z) (r_calls z).

Definition r_set_zs (zs' : izs) (z : reader) : reader :=
  mkReader (r_in z) (inConsumed z) (inEOF z) zs' (inBuf z) (r_err z) (r_calls z).

(** The effect of [z.in.Read(z.inBuf)] on the receiver. *)
Definition r_pulled (s' : src) (data : list byte) (z : reader) : reader :=
  mkReader s' (inConsumed z) (inEOF z) (r_zs z) (store data (inBuf z)) (r_err z)
           (r_calls z).

(** [NewReaderBuffer]; [None] is the panic of [make] on a negative size. *)
Definition NewReaderBuffer (input : src) (bufSize : Z)
  : option (option reader * option error) :=
  if bufSize <? 0 then None
  else
    let '(ec, zs) := zs_inflate_init in
    let z := mkReader input true false zs (make bufSize) None [InflateInit ec] in
    if negb (ec =? 0)
    then Some (None, zlibReturnCodeToError (zs_inflate_errno zs) ec)
    else Some (Some z, None).


(** [(z *reader) Close] *)
Definition reader_Close (z : reader) : option error * reader :=
  let z := r_log InflateEnd (r_set_zs (zs_inflate_end (r_zs z)) z) in
  match r_err z with
  | Some EOF => (None, z)
  | e => (e, z)
  end.

(** The variables of the loop of [Read]: the receiver, the part of [orgOut]
    that lies before the slice [out], and [out] itself. *)
Definition rloop : Type := (reader * list byte * list byte)%type.

(** What one round of the loop does: go round again, leave by [break], or
    panic. *)
Inductive round : Type :=
| Next (v : rloop)
| Break (v : rloop)
| Fault (z : reader).

(** Lines 96 to 109: the statements that follow the engine call.  [out] has
    the engine's bytes stored in it already. *)
Definition Read_after (z : reader) (done out : list byte)
    (ret outLen inC : Z) : round :=
  let z := r_set_inConsumed (negb (inC =? 0)) z in
  if negb (ret =? Z_STREAM_END) && negb (ret =? Z_OK)
  then Break (r_set_err (zlibReturnCodeToError (zs_inflate_errno (r_zs z)) ret) z,
              done, out)
  else
    let nOut := len out - outLen in
    if (nOut <? 0) || (len out <? nOut) then Fault z
    else
      let done := done ++ firstn (Z.to_nat nOut) out in
      let out := skipn (Z.to_nat nOut) out in
      if ret =? Z_STREAM_END then
        let '(ret, zs') := zs_inflate_reset (r_zs z) in
        let z := r_log (InflateReset ret) (r_set_zs zs' z) in
        if negb (ret =? Z_OK)
        then Break (r_set_err (zlibReturnCodeToError (zs_inflate_errno (r_zs z)) ret) z,
                    done, out)
        else Break (z, done, out)
      else Next (z, done, out).

(** Lines 87 to 94: after the pull, with [n] bytes in the staging buffer. *)
Definition Read_staged (z : reader) (n : Z) (done out : list byte) : round :=
  if n =? 0 then
    if negb (inEOF z) then Fault z
    else Break (r_set_err (Some EOF) z, done, out)
  else if len (inBuf z) =? 0 then Fault z
  else
    let '(ret, zs', w, outLen, inC) :=
      zs_inflate (r_zs z) (Some (inBuf z)) (C_int n) (C_int (len out)) in
    Read_after (r_log (Inflate true (C_int n) ret inC) (r_set_zs zs' z))
               done (store w out) ret outLen inC.

(** The body of the loop of [Read] (lines 66 to 109). *)
Definition Read_round (z : reader) (done out : list byte) : round :=
  if negb (inConsumed z) then
    let '(ret, zs', w, outLen, inC) :=
      zs_inflate (r_zs z) None 0 (C_int (len out)) in
    Read_after (r_log (Inflate false 0 ret inC) (r_set_zs zs' z))
               done (store w out) ret outLen inC
  else if inEOF z then Break (r_set_err (Some EOF) z, done, out)
  else
    let '(s', data, err) := src_read (r_in z) (len (inBuf z)) in
    let n := len data in
    let z := r_log (SrcRead n err) (r_pulled s' data z) in
    match err with
    | Some e =>
        if negb (is_EOF e) then Break (r_set_err (Some e) z, done, out)
        else Read_staged (r_set_inEOF true z) n done out
    | None => Read_staged z n done out
    end.

(** [z.err == nil && len(out) > 0] *)
Definition Read_guard (z : reader) (out : list byte) : bool :=
  match r_err z with
  | None => len out >? 0
  | Some _ => false
  end.

(** The loop of [Read], one round per unit of fuel. *)
Fixpoint Read_loop (fuel : nat) (z : reader) (done out : list byte)
  : outcome reader rloop :=
  if Read_guard z out then
    match fuel with
    | O => Timeout z
    | S fuel' =>
        match Read_round z done out with
        | Next (z, done, out) => Read_loop fuel' z done out
        | Break v => Done v (fst (fst v))
        | Fault z => Panic z
        end
    end
  else Done (z, done, out) z.

(** [(z *reader) Read]: the answer is [n], the error, and the content of the
    caller's buffer after the call. *)
Definition reader_Read (fuel : nat) (z : reader) (orgOut : list byte)
  : outcome reader (Z * option error * list byte) :=
  match Read_loop fuel z [] orgOut with
  | Done (z, done, out) _ => Done (len orgOut - len out, r_err z, done ++ out) z
  | Panic z => Panic z
  | Timeout z => Timeout z
  end.

End ReaderModel.

(** ** A reference engine, source and sink

    The C side is not part of the Go file.  To run the embedding, a small
    engine with the calling conventions of zlib stands in for it: a stored
    format in which every data byte [b] is written as [01 b], a flush leaves
    the marker [02] and the stream ends with [00].  Like zlib it keeps input
    in a window until a block is full, a flush or the end; it answers
    [Z_BUF_ERROR] when a call can make no progress and [Z_STREAM_ERROR] when
    called out of sequence. *)
Module Ref.

Definition tag_lit : byte := x01.
Definition tag_sync : byte := x02.
Definition tag_end : byte := x00.

(** Bytes of input the window holds back before a block is written. *)
Definition block : nat := 4.

Definition enc (data : list byte) : list byte :=
  flat_map (fun b => [tag_lit; b]) data.

Record dstate : Type := mkD {
  d_win : list byte;       (* taken in, not yet written as a block *)
  d_pending : list byte;   (* written, not yet handed out *)
  d_finished : bool;       (* the end marker is written *)
  d_ended : bool;          (* deflateEnd was called *)
  d_full : bool;           (* the last call left no room in the output *)
  d_flushed : bool         (* the last call was a flush *)
}.

Definition d_init : dstate := mkD [] [] false false false false.

(** The bytes of [*in] the engine is told about. *)
Definition told (input : option (list byte)) (in_bytes : Z) : list byte :=
  match input with
  | Some buf => if in_bytes >? 0 then firstn (Z.to_nat in_bytes) buf else []
  | None => []
  end.

(** Hand out as much of the pending output as the room [cap] allows. *)
Definition emit (win pending : list byte) (fin flushed : bool) (cap : Z) (ret : Z)
  : Z * dstate * list byte * Z :=
  let k := Nat.min (Z.to_nat cap) (length pending) in
  (ret,
   mkD win (skipn k pending) fin false (Z.of_nat k =? cap) flushed,
   firstn k pending,
   cap - Z.of_nat k).

Definition deflate_init (level : Z) : Z * dstate :=
  if (level <? -1) || (9 <? level) then (Z_STREAM_ERROR, d_init)
  else (Z_OK, d_init).

Definition deflate (st : dstate) (input : option (list byte)) (in_bytes cap : Z)
  : Z * dstate * list byte * Z :=
  if d_ended st || d_finished st then (Z_STREAM_ERROR, st, [], cap)
  else if cap <=? 0 then (Z_BUF_ERROR, st, [], cap)
  else
    let data := told input in_bytes in
    match data, d_pending st, d_full st with
    | [], [], false => (Z_BUF_ERROR, st, [], cap)
    | _, _, _ =>
        let win := d_win st ++ data in
        if (block <=? length win)%nat
        then emit [] (d_pending st ++ enc win) false false cap Z_OK
        else emit win (d_pending st) false false cap Z_OK
    end.

Definition deflate_flush (st : dstate) (cap : Z) : Z * dstate * list byte * Z :=
  if d_ended st || d_finished st then (Z_STREAM_ERROR, st, [], cap)
  else if cap <=? 0 then (Z_BUF_ERROR, st, [], cap)
  else
    match d_win st, d_pending st, d_flushed st with
    | [], [], true => (Z_BUF_ERROR, st, [], cap)
    | _, _, true => emit [] (d_pending st ++ enc (d_win st)) false true cap Z_OK
    | _, _, false =>
        emit [] (d_pending st ++ enc (d_win st) ++ [tag_sync]) false true cap Z_OK
    end.

Definition deflate_finish (st : dstate) (cap : Z) : Z * dstate * list byte * Z :=
  if d_ended st then (Z_STREAM_ERROR, st, [], cap)
  else if cap <=? 0 then (Z_BUF_ERROR, st, [], cap)
  else
    let pending :=
      if d_finished st then d_pending st
      else d_pending st ++ enc (d_win st) ++ [tag_end] in
    let ret :=
      if (length pending <=? Z.to_nat cap)%nat then Z_STREAM_END else Z_OK in
    emit [] pending true false cap ret.

Definition deflate_reset (st : dstate) : Z * dstate :=
  if d_ended st then (Z_STREAM_ERROR, st) else (Z_OK, d_init).

Definition deflate_end (st : dstate) : dstate :=
  mkD (d_win st) (d_pending st) (d_finished st) true (d_full st) (d_flushed st).

Definition Deflater : DeflateEngine := {|
  dzs := dstate;
  zs_deflate_init := deflate_init;
  zs_deflate := deflate;
  zs_deflate_finish := deflate_finish;
  zs_deflate_flush := deflate_flush;
  zs_deflate_reset := deflate_reset;
  zs_deflate_end := deflate_end;
  zs_deflate_errno := fun _ => 0
|}.

Record istate : Type := mkI {
  i_held : list byte;   (* input handed over and not yet used *)
  i_lit : bool;         (* a literal tag was read, its byte is next *)
  i_ended : bool        (* inflateEnd was called *)
}.

Definition i_init : istate := mkI [] false false.

(** Decode from [held] into at most [room] bytes: the answer is the status,
    the input left over, the literal flag and the bytes decoded. *)
Fixpoint decode (held : list byte) (lit : bool) (room : nat)
  : Z * list byte * bool * list byte :=
  match held with
  | [] => (Z_OK, [], lit, [])
  | b :: rest =>
      if lit then
        match room with
        | O => (Z_OK, held, lit, [])
        | S room' =>
            let '(ret, held', lit', out) := decode rest false room' in
            (ret, held', lit', b :: out)
        end
      else if Byte.eqb b tag_lit then decode rest true room
      else if Byte.eqb b tag_sync then decode rest false room
      else if Byte.eqb b tag_end then (Z_STREAM_END, rest, false, [])
      else (Z_DATA_ERROR, held, false, [])
  end.

Definition inflate (st : istate) (input : option (list byte)) (in_bytes cap : Z)
  : Z * istate * list byte * Z * Z :=
  if i_ended st then (Z_STREAM_ERROR, st, [], cap, 0)
  else
    let held :=
      match input with
      | Some buf =>
          if in_bytes >? 0 then firstn (Z.to_nat in_bytes) buf else i_held st
      | None => i_held st
      end in
    let '(ret, held', lit', out) := decode held (i_lit st) (Z.to_nat cap) in
    let ret :=
      if (ret =? Z_OK) && (length held' =? length held)%nat
         && (length out =? 0)%nat
      then Z_BUF_ERROR else ret in
    (ret, mkI held' lit' false, out, cap - len out,
     if (length held' =? 0)%nat then 1 else 0).

Definition inflate_reset (st : istate) : Z * istate :=
  if i_ended st then (Z_STREAM_ERROR, st)
  else (Z_OK, mkI (i_held st) false false).

Definition inflate_end (st : istate) : istate :=
  mkI (i_held st) (i_lit st) true.

Definition Inflater : InflateEngine := {|
  izs := istate;
  zs_inflate_init := (Z_OK, i_init);
  zs_inflate := inflate;
  zs_inflate_reset := inflate_reset;
  zs_inflate_end := inflate_end;
  zs_inflate_errno := fun _ => 0
|}.

(** A source in the manner of [bytes.Reader]: the bytes not yet read. *)
Definition bytes_read (rest : list byte) (l : Z)
  : list byte * list byte * option error :=
  match rest with
  | [] => ([], [], Some EOF)
  | _ => (skipn (Z.to_nat l) rest, firstn (Z.to_nat l) rest, None)
  end.

Definition BytesSource : Source := {| src := list byte; src_read := bytes_read |}.

(** A source that plays a script: one answer per call, whatever the room. *)
Definition script_read (s : list (list byte * option error)) (l : Z)
  : list (list byte * option error) * list byte * option error :=
  match s with
  | [] => ([], [], Some EOF)
  | (data, err) :: s' => (s', data, err)
  end.

Definition ScriptSource : Source :=
  {| src := list (list byte * option error); src_read := script_read |}.

(** A sink in the manner of [bytes.Buffer], with a script of failures: the
    head of the script, when it is an error, fails that write. *)
Definition buffer_write (k : list (option error) * list byte) (data : list byte)
  : (list (option error) * list byte) * Z * option error :=
  match fst k with
  | Some e :: s' => ((s', snd k), 0, Some e)
  | None :: s' => ((s', snd k ++ data), len data, None)
  | [] => (([], snd k ++ data), len data, None)
  end.

Definition BufferSink : Sink :=
  {| snk := list (option error) * list byte; snk_write := buffer_write |}.

End Ref.

(** * Properties *)

(** ** Integers, status codes and buffers *)

Lemma C_int_small (x : Z) : - 2 ^ 31 <= x < 2 ^ 31 -> C_int x = x.
Proof.
  intros H. unfold C_int.
  rewrite Z.mod_small by lia. lia.
Qed.

Lemma C_int_wraps (x : Z) : C_int (x + 2 ^ 32) = C_int x.
Proof.
  unfold C_int.
  replace (x + 2 ^ 32 + 2 ^ 31) with (x + 2 ^ 31 + 1 * 2 ^ 32) by ring.
  now rewrite Z.mod_add by lia.
Qed.

Lemma len_nonneg {A : Type} (s : list A) : 0 <= len s.
Proof. unfold len. lia. Qed.

Lemma len_app {A : Type} (s t : list A) : len (s ++ t) = len s + len t.
Proof. unfold len. rewrite length_app. lia. Qed.

Lemma len_nil_inv {A : Type} (s : list A) : len s = 0 -> s = [].
Proof. destruct s; [easy | unfold len; simpl; lia]. Qed.

Lemma store_length (w buf : list byte) : length (store w buf) = length buf.
Proof.
  unfold store. rewrite length_firstn, length_app, length_skipn. lia.
Qed.

Lemma len_store (w buf : list byte) : len (store w buf) = len buf.
Proof. unfold len. now rewrite store_length. Qed.

(** A callee that stays inside the buffer leaves exactly its bytes at the
    front. *)
Lemma firstn_store (w buf : list byte) :
  (length w <= length buf)%nat -> firstn (length w) (store w buf) = w.
Proof.
  intros H. unfold store.
  rewrite firstn_firstn, Nat.min_l by exact H.
  rewrite firstn_app, Nat.sub_diag, firstn_all. simpl. apply app_nil_r.
Qed.

(** [zlibReturnCodeToError] answers nil for [Z_OK] only. *)
Lemma zlibReturnCodeToError_nonzero (errno r : Z) :
  r <> 0 -> zlibReturnCodeToError errno r <> None.
Proof.
  intros Hr. unfold zlibReturnCodeToError.
  destruct (r =? 0) eqn:E0; [apply Z.eqb_eq in E0; contradiction |].
  destruct (r =? Z_ERRNO) eqn:E1; [discriminate |].
  unfold zlibErrors. rewrite E1.
  change Z_OK with 0. rewrite E0.
  repeat match goal with
         | |- context [if ?c then _ else _] => destruct c
         end; discriminate.
Qed.

Lemma zlibReturnCodeToError_zero (errno : Z) :
  zlibReturnCodeToError errno 0 = None.
Proof. reflexivity. Qed.

(** ** The Writer *)

Section WriterFacts.
Context {DE : DeflateEngine} {SK : Sink}.

(** [l] holds only calls of the kinds a drain makes: engine steps of the
    given kind and writes to the sink. *)
Definition only_calls (ok : call -> bool) (l : list call) : Prop :=
  forallb ok l = true.

Lemma only_calls_app ok l1 l2 :
  only_calls ok l1 -> only_calls ok l2 -> only_calls ok (l1 ++ l2).
Proof. unfold only_calls. intros H1 H2. now rewrite forallb_app, H1, H2. Qed.

Lemma push_spec (z : writer) (data : list byte) :
  let '(k, n, err) := snk_write (w_out z) data in
  snd (push z data) =
    mkWriter k (w_zs z) (outBuf z) (w_err z) (w_calls z ++ [SinkWrite data]) /\
  (fst (push z data) = None -> err = None /\ len data <= n).
Proof.
  unfold push.
  destruct (snk_write (w_out z) data) as [[k n] err].
  destruct err as [e |]; [split; [reflexivity | discriminate] |].
  destruct (n <? len data) eqn:E; simpl; split; try reflexivity; try discriminate.
  intros _. apply Z.ltb_ge in E. auto.
Qed.

Lemma push_frame (z : writer) (data : list byte) :
  w_zs (snd (push z data)) = w_zs z /\
  outBuf (snd (push z data)) = outBuf z /\
  w_err (snd (push z data)) = w_err z /\
  w_calls (snd (push z data)) = w_calls z ++ [SinkWrite data].
Proof.
  pose proof (push_spec z data) as H.
  destruct (snk_write (w_out z) data) as [[k n] err].
  destruct H as [-> _]. simpl. auto.
Qed.

(** What [push_outBuf] does when it returns. *)
Lemma push_outBuf_done (z : writer) (outLen : Z) (err : option error) (z' : writer) :
  push_outBuf z outLen = Done err z' ->
  0 <= len (outBuf z) - outLen <= len (outBuf z) /\
  (err, z') = push z (firstn (Z.to_nat (len (outBuf z) - outLen)) (outBuf z)).
Proof.
  unfold push_outBuf.
  destruct ((len (outBuf z) - outLen <? 0) || (len (outBuf z) <? len (outBuf z) - outLen))
    eqn:E; [discriminate |].
  apply orb_false_iff in E. destruct E as [E1 E2].
  apply Z.ltb_ge in E1. apply Z.ltb_ge in E2.
  destruct (push z _) as [e z1] eqn:P. intros H. inversion H; subst.
  split; [lia | reflexivity].
Qed.

Lemma push_outBuf_never_timeout (z : writer) (outLen : Z) (z' : writer) :
  push_outBuf z outLen <> Timeout z'.
Proof.
  unfold push_outBuf.
  destruct (_ || _); [discriminate |].
  destruct (push z _); discriminate.
Qed.

Lemma push_outBuf_panic (z : writer) (outLen : Z) (z' : writer) :
  push_outBuf z outLen = Panic z' ->
  z' = z /\ (len (outBuf z) - outLen < 0 \/ len (outBuf z) < len (outBuf z) - outLen).
Proof.
  unfold push_outBuf.
  destruct (_ || _) eqn:E.
  - intros H. inversion H; subst z'. split; [reflexivity |].
    apply orb_true_iff in E. destruct E as [E | E]; apply Z.ltb_lt in E; [left | right]; exact E.
  - destruct (push z _); discriminate.
Qed.

End WriterFacts.

Section WriterOperations.
Context {DE : DeflateEngine} {SK : Sink}.

(** The calls a drain of the given engine step may make. *)
Definition finish_call (c : call) : bool :=
  match c with DeflateFinish _ | SinkWrite _ => true | _ => false end.

Definition deflate_call (c : call) : bool :=
  match c with Deflate _ _ _ | SinkWrite _ => true | _ => false end.

Definition flush_call (c : call) : bool :=
  match c with DeflateFlush _ | SinkWrite _ => true | _ => false end.

Definition releases (c : call) : bool :=
  match c with DeflateEnd => true | _ => false end.

(** The part of a writer that a drain never changes. *)
Definition same_frame (z z' : writer) : Prop :=
  len (outBuf z') = len (outBuf z) /\ w_err z' = w_err z.

Lemma same_frame_refl z : same_frame z z.
Proof. split; reflexivity. Qed.

Lemma same_frame_trans z1 z2 z3 :
  same_frame z1 z2 -> same_frame z2 z3 -> same_frame z1 z3.
Proof. unfold same_frame. intros [? ?] [? ?]. split; congruence. Qed.

(** [z'] is [z] after some calls of the kind [ok], and nothing else. *)
Definition extends (ok : call -> bool) (z z' : writer) : Prop :=
  exists l, w_calls z' = w_calls z ++ l /\ only_calls ok l /\ same_frame z z'.

Lemma extends_refl ok z : extends ok z z.
Proof.
  exists []. rewrite app_nil_r. repeat split; reflexivity.
Qed.

Lemma extends_trans ok z1 z2 z3 :
  extends ok z1 z2 -> extends ok z2 z3 -> extends ok z1 z3.
Proof.
  intros (l1 & H1 & O1 & F1) (l2 & H2 & O2 & F2).
  exists (l1 ++ l2). rewrite H2, H1, app_assoc.
  split; [reflexivity |]. split.
  - now apply only_calls_app.
  - eapply same_frame_trans; eassumption.
Qed.

Lemma extends_log ok c z : ok c = true -> extends ok z (w_log c z).
Proof.
  intros H. exists [c]. simpl. unfold only_calls. simpl. rewrite H.
  repeat split; reflexivity.
Qed.

Lemma extends_engine ok zs' w z : extends ok z (w_engine zs' w z).
Proof.
  exists []. simpl. rewrite app_nil_r.
  repeat split; try reflexivity. simpl. apply len_store.
Qed.

Lemma extends_step ok c zs' w z :
  ok c = true -> extends ok z (w_log c (w_engine zs' w z)).
Proof.
  intros H. eapply extends_trans; [apply extends_engine | now apply extends_log].
Qed.

Lemma extends_push ok z data :
  ok (SinkWrite data) = true -> extends ok z (snd (push z data)).
Proof.
  intros H. destruct (push_frame z data) as (_ & Fb & Fe & Fc).
  exists [SinkWrite data]. split; [exact Fc |]. split.
  - unfold only_calls. simpl. now rewrite H.
  - split; [now rewrite Fb | exact Fe].
Qed.

Lemma extends_push_outBuf ok z outLen :
  (forall data, ok (SinkWrite data) = true) ->
  extends ok z (state_of (push_outBuf z outLen)).
Proof.
  intros H. unfold push_outBuf.
  destruct (_ || _); [apply extends_refl |].
  pose proof (extends_push ok z (firstn (Z.to_nat (len (outBuf z) - outLen)) (outBuf z))
                (H _)) as E.
  destruct (push z _) as [e z1]. exact E.
Qed.

Lemma push_outBuf_zs z outLen :
  w_zs (state_of (push_outBuf z outLen)) = w_zs z.
Proof.
  unfold push_outBuf.
  destruct (_ || _); [reflexivity |].
  pose proof (push_frame z (firstn (Z.to_nat (len (outBuf z) - outLen)) (outBuf z))) as F.
  destruct (push z _) as [e z1]. simpl in *. apply F.
Qed.

(** The log of a call to [Close]: finish steps and writes to the sink only. *)
Lemma writer_Close_log (fuel : nat) (z : writer) :
  extends finish_call z (state_of (writer_Close fuel z)).
Proof.
  revert z. induction fuel as [| fuel IH]; intros z; simpl.
  - apply extends_refl.
  - destruct (len (outBuf z) =? 0); [apply extends_refl |].
    destruct (zs_deflate_finish (w_zs z) (C_int (len (outBuf z))))
      as [[[ret zs'] w] outLen] eqn:E.
    set (z1 := w_log (DeflateFinish ret) (w_engine zs' w z)).
    assert (E1 : extends finish_call z z1) by (now apply extends_step).
    destruct (negb (ret =? 0) && negb (ret =? Z_STREAM_END)); [exact E1 |].
    assert (E2 : extends finish_call z (state_of (push_outBuf z1 outLen))).
    { eapply extends_trans; [exact E1 | now apply extends_push_outBuf]. }
    destruct (push_outBuf z1 outLen) as [[e |] z2 | z2 | z2]; simpl in *;
      try exact E2.
    destruct (ret =? Z_STREAM_END); [exact E2 |].
    eapply extends_trans; [exact E2 | apply IH].
Qed.

(** The log of the drain loop of [Write]. *)
Lemma Write_loop_log (fuel : nat) (z : writer) :
  extends deflate_call z (state_of (Write_loop fuel z)).
Proof.
  revert z. induction fuel as [| fuel IH]; intros z; simpl.
  - apply extends_refl.
  - destruct (len (outBuf z) =? 0); [apply extends_refl |].
    destruct (zs_deflate (w_zs z) None 0 (C_int (len (outBuf z))))
      as [[[ret zs'] w] outLen] eqn:E.
    set (z1 := w_log (Deflate false 0 ret) (w_engine zs' w z)).
    assert (E1 : extends deflate_call z z1) by (now apply extends_step).
    destruct (negb (ret =? 0)); [exact E1 |].
    assert (E2 : extends deflate_call z (state_of (push_outBuf z1 outLen))).
    { eapply extends_trans; [exact E1 | now apply extends_push_outBuf]. }
    destruct (push_outBuf z1 outLen) as [[e |] z2 | z2 | z2]; simpl in *;
      try exact E2.
    destruct (outLen >? 0); [exact E2 |].
    eapply extends_trans; [exact E2 | apply IH].
Qed.

Lemma writer_Write_log (fuel : nat) (z : writer) (input : list byte) :
  extends deflate_call z (state_of (writer_Write fuel z input)).
Proof.
  unfold writer_Write.
  destruct (len input =? 0); [apply extends_refl |].
  destruct (len (outBuf z) =? 0); [apply extends_refl |].
  destruct (zs_deflate (w_zs z) (Some input) (C_int (len input)) (C_int (len (outBuf z))))
    as [[[ret zs'] w] outLen] eqn:E.
  set (z1 := w_log (Deflate true (C_int (len input)) ret) (w_engine zs' w z)).
  assert (E1 : extends deflate_call z z1) by (now apply extends_step).
  destruct (negb (ret =? 0)); [exact E1 |].
  assert (E2 : extends deflate_call z (state_of (push_outBuf z1 outLen))).
  { eapply extends_trans; [exact E1 | now apply extends_push_outBuf]. }
  destruct (push_outBuf z1 outLen) as [[e |] z2 | z2 | z2]; simpl in *;
    try exact E2.
  destruct (outLen >? 0); [exact E2 |].
  assert (E3 : extends deflate_call z (state_of (Write_loop fuel z2))).
  { eapply extends_trans; [exact E2 | apply Write_loop_log]. }
  destruct (Write_loop fuel z2) as [[e |] z3 | z3 | z3]; exact E3.
Qed.

Lemma writer_Flush_log (z : writer) :
  extends flush_call z (state_of (writer_Flush z)).
Proof.
  unfold writer_Flush.
  destruct (len (outBuf z) =? 0); [apply extends_refl |].
  destruct (zs_deflate_flush (w_zs z) (C_int (len (outBuf z))))
    as [[[ret zs'] w] outLen] eqn:E.
  set (z1 := w_log (DeflateFlush ret) (w_engine zs' w z)).
  assert (E1 : extends flush_call z z1) by (now apply extends_step).
  destruct (ret =? Z_BUF_ERROR); [exact E1 |].
  destruct (negb (ret =? 0)); [exact E1 |].
  eapply extends_trans; [exact E1 | now apply extends_push_outBuf].
Qed.

End WriterOperations.

Section WriterClaims.
Context {DE : DeflateEngine} {SK : Sink}.

(** [Write] answers the whole length and nil, or zero and an error. *)
Lemma writer_Write_all_or_error (fuel : nat) (z : writer) (input : list byte)
    (n : Z) (err : option error) (z' : writer) :
  writer_Write fuel z input = Done (n, err) z' ->
  (n = len input /\ err = None) \/ (n = 0 /\ err <> None).
Proof.
  unfold writer_Write.
  destruct (len input =? 0) eqn:E0.
  { intros H. inversion H; subst. apply Z.eqb_eq in E0. left. split; congruence. }
  destruct (len (outBuf z) =? 0); [discriminate |].
  destruct (zs_deflate _ _ _ _) as [[[ret zs'] w] outLen].
  destruct (negb (ret =? 0)) eqn:Er.
  { intros H. inversion H; subst. right. split; [reflexivity |].
    apply zlibReturnCodeToError_nonzero.
    apply negb_true_iff, Z.eqb_neq in Er. exact Er. }
  destruct (push_outBuf _ outLen) as [[e |] z2 | z2 | z2]; try discriminate.
  { intros H. inversion H; subst. right. split; [reflexivity | discriminate]. }
  destruct (outLen >? 0).
  { intros H. inversion H; subst. left. split; reflexivity. }
  destruct (Write_loop fuel z2) as [[e |] z3 | z3 | z3]; try discriminate.
  - intros H. inversion H; subst. right. split; [reflexivity | discriminate].
  - intros H. inversion H; subst. left. split; reflexivity.
Qed.

(** The first engine call of a [Write] that answers nil was told
    [C.int(len(in))] bytes, and answered [Z_OK]. *)
Lemma writer_Write_told (fuel : nat) (z : writer) (input : list byte)
    (n : Z) (z' : writer) :
  input <> [] ->
  writer_Write fuel z input = Done (n, None) z' ->
  exists l, w_calls z' = w_calls z ++ Deflate true (C_int (len input)) 0 :: l.
Proof.
  intros Hin. unfold writer_Write.
  destruct (len input =? 0) eqn:E0.
  { apply Z.eqb_eq, len_nil_inv in E0. contradiction. }
  destruct (len (outBuf z) =? 0); [discriminate |].
  destruct (zs_deflate _ _ _ _) as [[[ret zs'] w] outLen].
  destruct (negb (ret =? 0)) eqn:Er.
  { intros H. inversion H as [[Hn He Hz]]. exfalso.
    apply negb_true_iff, Z.eqb_neq in Er.
    eapply zlibReturnCodeToError_nonzero; [exact Er |].
    first [exact He | symmetry; exact He]. }
  apply negb_false_iff, Z.eqb_eq in Er. subst ret.
  set (z1 := w_log (Deflate true (C_int (len input)) 0) (w_engine zs' w z)).
  pose proof (extends_push_outBuf deflate_call z1 outLen (fun _ => eq_refl)) as E2.
  destruct (push_outBuf z1 outLen) as [[e |] z2 | z2 | z2]; try discriminate.
  simpl in E2.
  assert (E3 : forall z3, extends deflate_call z2 z3 ->
            exists l, w_calls z3 = w_calls z ++ Deflate true (C_int (len input)) 0 :: l).
  { intros z3 E3. destruct (extends_trans _ _ _ _ E2 E3) as (l & Hl & _).
    exists l. rewrite Hl. simpl. now rewrite <- app_assoc. }
  destruct (outLen >? 0).
  { intros H. inversion H; subst. apply E3, extends_refl. }
  pose proof (Write_loop_log fuel z2) as E4.
  destruct (Write_loop fuel z2) as [[e |] z3 | z3 | z3]; try discriminate.
  intros H. inversion H; subst. apply E3, E4.
Qed.

(** C9: [Write] with an empty slice answers [(0, nil)] at once and leaves
    the writer as it was: its log of calls has no new entry, so the engine
    was not invoked and nothing was written to the sink. *)
Theorem Write_empty_returns_at_once :
  forall (fuel : nat) (z : writer), writer_Write fuel z [] = Done (0, None) z.
Proof. intros fuel z. reflexivity. Qed.

(** C7: when the flush step of the engine answers [Z_BUF_ERROR], [Flush]
    answers nil and pushes nothing; for every other status that is not
    [Z_OK] it answers the error of that status, which is not nil. *)
Theorem Flush_recovers_from_buf_error_only :
  forall (z : writer) (ret : Z) (zs' : dzs) (w : list byte) (outLen : Z),
    len (outBuf z) <> 0 ->
    zs_deflate_flush (w_zs z) (C_int (len (outBuf z))) = (ret, zs', w, outLen) ->
    let z1 := w_log (DeflateFlush ret) (w_engine zs' w z) in
    (ret = Z_BUF_ERROR -> writer_Flush z = Done None z1) /\
    (ret <> Z_BUF_ERROR -> ret <> Z_OK ->
     exists e, zlibReturnCodeToError (zs_deflate_errno zs') ret = Some e /\
               writer_Flush z = Done (Some e) z1).
Proof.
  intros z ret zs' w outLen Hbuf E z1. unfold writer_Flush.
  apply Z.eqb_neq in Hbuf. rewrite Hbuf, E. fold z1. split.
  - intros ->. reflexivity.
  - intros Hb Hok.
    apply Z.eqb_neq in Hb. rewrite Hb.
    assert (Hnz : ret <> 0) by exact Hok.
    apply Z.eqb_neq in Hok. change Z_OK with 0 in Hok. rewrite Hok. simpl.
    destruct (zlibReturnCodeToError (zs_deflate_errno zs') ret) as [e |] eqn:Ee.
    + exists e. split; reflexivity.
    + exfalso. revert Ee. now apply zlibReturnCodeToError_nonzero.
Qed.

End WriterClaims.

(** ** The life of the engine handle of a Writer *)

Section WriterLifecycle.
Context {DE : DeflateEngine} {SK : Sink}.

(** The operations of the [Writer] interface. *)
Inductive wop : Type :=
| OpWrite (data : list byte)
| OpFlush
| OpClose
| OpReset (k : snk).

(** The writer after one operation, and after a sequence of them. *)
Definition run_op (fuel : nat) (z : writer) (op : wop) : writer :=
  match op with
  | OpWrite data => state_of (writer_Write fuel z data)
  | OpFlush => state_of (writer_Flush z)
  | OpClose => state_of (writer_Close fuel z)
  | OpReset k => snd (writer_Reset z k)
  end.

Definition run_ops (fuel : nat) (ops : list wop) (z : writer) : writer :=
  fold_left (run_op fuel) ops z.

Definition keeps (c : call) : bool := negb (releases c).

Lemma extends_weaken (ok1 ok2 : call -> bool) (z z' : writer) :
  (forall c, ok1 c = true -> ok2 c = true) ->
  extends ok1 z z' -> extends ok2 z z'.
Proof.
  intros Hok (l & Hl & Ho & Hf). exists l. repeat split; try assumption; try apply Hf.
  unfold only_calls in *. rewrite forallb_forall in *. auto.
Qed.

Lemma writer_Reset_log (z : writer) (k : snk) :
  extends keeps z (snd (writer_Reset z k)).
Proof.
  unfold writer_Reset.
  destruct (zs_deflate_reset (w_zs z)) as [ret zs'].
  destruct (negb (ret =? Z_OK)); simpl;
    (exists [DeflateReset ret]; repeat split; reflexivity).
Qed.

Lemma run_op_log (fuel : nat) (z : writer) (op : wop) :
  extends keeps z (run_op fuel z op).
Proof.
  destruct op as [data | | | k]; simpl.
  - apply (extends_weaken deflate_call); [| apply writer_Write_log].
    intros [] H; try discriminate; reflexivity.
  - apply (extends_weaken flush_call); [| apply writer_Flush_log].
    intros [] H; try discriminate; reflexivity.
  - apply (extends_weaken finish_call); [| apply writer_Close_log].
    intros [] H; try discriminate; reflexivity.
  - apply writer_Reset_log.
Qed.

Lemma run_ops_log (fuel : nat) (ops : list wop) (z : writer) :
  extends keeps z (run_ops fuel ops z).
Proof.
  revert z. induction ops as [| op ops IH]; intros z; simpl.
  - apply extends_refl.
  - eapply extends_trans; [apply run_op_log | apply IH].
Qed.

Lemma len_make (n : Z) : 0 <= n -> len (make n) = n.
Proof. intros H. unfold len, make. rewrite repeat_length. lia. Qed.

(** C10: a writer made by [NewWriterLevel] has the finalizer installed; no
    sequence of [Write], [Flush], [Close] and [Reset] calls [zs_deflate_end]
    (that is what [gcWriter] does), and a [Close] that answers nil leaves the
    staging buffer in place.  [Reset] then takes the [zstream] block that
    [Close] left, lets the engine reinitialize it, and on [Z_OK] binds the new
    sink: the same writer, ready for another stream. *)
Theorem Close_keeps_engine_and_Reset_reuses_it :
  forall (w : snk) (level bufSize : Z) (z0 : writer) (ops : list wop)
         (fuel : nat) (z1 : writer) (k : snk),
    NewWriterLevel w level bufSize = Some (Some z0, None) ->
    writer_Close fuel (run_ops fuel ops z0) = Done None z1 ->
    (exists l, w_calls z1 = DeflateInit (C_int level) 0 :: SetFinalizer :: l /\
               ~ In DeflateEnd l) /\
    w_calls (gcWriter z1) = w_calls z1 ++ [DeflateEnd] /\
    len (outBuf z1) = bufSize /\
    (forall (ret : Z) (zs2 : dzs),
        zs_deflate_reset (w_zs z1) = (ret, zs2) -> ret = Z_OK ->
        writer_Reset z1 k =
          (None, mkWriter k zs2 (outBuf z1) (w_err z1)
                          (w_calls z1 ++ [DeflateReset Z_OK]))).
Proof.
  intros w level bufSize z0 ops fuel z1 k Hnew Hclose.
  assert (E : extends keeps z0 z1).
  { eapply extends_trans; [apply (run_ops_log fuel ops) |].
    apply (extends_weaken finish_call);
      [intros [] H; try discriminate; reflexivity |].
    pose proof (writer_Close_log fuel (run_ops fuel ops z0)) as C.
    rewrite Hclose in C. exact C. }
  unfold NewWriterLevel in Hnew.
  destruct (bufSize <? 0) eqn:Eb; [discriminate |].
  apply Z.ltb_ge in Eb.
  destruct (zs_deflate_init (C_int level)) as [ec zs] eqn:Ei.
  destruct (negb (ec =? 0)) eqn:Ec; [discriminate |].
  apply negb_false_iff, Z.eqb_eq in Ec. subst ec.
  inversion Hnew; subst z0; clear Hnew.
  destruct E as (l & Hl & Ho & Hlen & Herr). simpl in Hl, Hlen, Herr.
  split; [| split; [| split]].
  - exists l. split; [exact Hl |].
    intros Hin. unfold only_calls in Ho. rewrite forallb_forall in Ho.
    specialize (Ho _ Hin). discriminate.
  - reflexivity.
  - rewrite Hlen. now apply len_make.
  - intros ret zs2 Hr ->. unfold writer_Reset. rewrite Hr. reflexivity.
Qed.

End WriterLifecycle.

(** ** The Reader *)

Section ReaderFacts.
Context {IE : InflateEngine} {SR : Source}.

Definition round_state (r : round) : reader :=
  match r with
  | Next (z, _, _) => z
  | Break (z, _, _) => z
  | Fault z => z
  end.

Definition is_next (r : round) : bool :=
  match r with Next _ => true | _ => false end.

Definition is_fault (r : round) : bool :=
  match r with Fault _ => true | _ => false end.

(** The order of calls that the flags of the reader impose.  [consumed] and
    [eof] are [inConsumed] and [inEOF]; [staged] says that a pull has just
    put bytes in the staging buffer.  A pull needs [consumed], not [eof] and
    nothing [staged]; an engine step with fresh input needs [staged], one without needs input
    left in the engine.  The answer is the flags after the last call. *)
Fixpoint pull_discipline (consumed eof staged : bool) (l : list call)
  : option (bool * bool * bool) :=
  match l with
  | [] => Some (consumed, eof, staged)
  | SrcRead _ err :: l' =>
      if consumed && negb eof && negb staged
      then pull_discipline consumed
             (match err with Some EOF => true | _ => false end) true l'
      else None
  | Inflate fresh _ _ c :: l' =>
      if (if fresh then staged else negb consumed)
      then pull_discipline (negb (c =? 0)) eof false l'
      else None
  | _ :: l' => pull_discipline consumed eof staged l'
  end.

(** Every end-of-stream answer of the engine is followed by the reset, and
    by nothing else. *)
Fixpoint stops_at_end (l : list call) : bool :=
  match l with
  | [] => true
  | Inflate _ _ ret _ :: l' =>
      if ret =? Z_STREAM_END
      then match l' with [InflateReset _] => true | _ => false end
      else stops_at_end l'
  | _ :: l' => stops_at_end l'
  end.

(** No end-of-stream answer and no reset. *)
Definition no_end (c : call) : bool :=
  match c with
  | Inflate _ _ ret _ => negb (ret =? Z_STREAM_END)
  | InflateReset _ => false
  | _ => true
  end.

Lemma stops_at_end_app (l1 l2 : list call) :
  forallb no_end l1 = true -> stops_at_end (l1 ++ l2) = stops_at_end l2.
Proof.
  induction l1 as [| c l1 IH]; simpl; [reflexivity |].
  intros H. apply andb_true_iff in H. destruct H as [Hc Hl].
  destruct c; simpl in *; auto.
  apply negb_true_iff in Hc. rewrite Hc. auto.
Qed.

Lemma pull_discipline_app (l1 l2 : list call) :
  forall consumed eof staged c1 e1 s1,
    pull_discipline consumed eof staged l1 = Some (c1, e1, s1) ->
    pull_discipline consumed eof staged (l1 ++ l2) = pull_discipline c1 e1 s1 l2.
Proof.
  induction l1 as [| c l1 IH]; intros consumed eof staged c1 e1 s1 H; simpl in *.
  - inversion H; subst. reflexivity.
  - destruct c; try (now apply IH).
    + destruct (if fresh then staged else negb consumed); [| discriminate].
      now apply IH.
    + destruct (consumed && negb eof && negb staged); [| discriminate].
      now apply IH.
Qed.

(** The statements after the engine call: log, flags and shape. *)
Lemma Read_after_shape (z : reader) (done out : list byte) (ret outLen inC : Z) :
  let r := Read_after z done out ret outLen inC in
  exists l,
    r_calls (round_state r) = r_calls z ++ l /\
    inConsumed (round_state r) = negb (inC =? 0) /\
    inEOF (round_state r) = inEOF z /\
    r_in (round_state r) = r_in z /\
    inBuf (round_state r) = inBuf z /\
    (l = [] \/ exists r', l = [InflateReset r'] /\ ret = Z_STREAM_END) /\
    (is_next r = true -> ret = Z_OK /\ l = [] /\ r_err (round_state r) = r_err z) /\
    (is_fault r = false -> ret = Z_STREAM_END -> exists r', l = [InflateReset r']).
Proof.
  unfold Read_after.
  destruct (negb (ret =? Z_STREAM_END) && negb (ret =? Z_OK)) eqn:E1.
  { exists []. simpl. rewrite app_nil_r. repeat split; auto; try discriminate.
    intros _ ->. discriminate. }
  destruct ((len out - outLen <? 0) || (len out <? len out - outLen)).
  { exists []. simpl. rewrite app_nil_r. repeat split; auto; discriminate. }
  destruct (ret =? Z_STREAM_END) eqn:E2.
  - apply Z.eqb_eq in E2.
    destruct (zs_inflate_reset _) as [ret' zs'] eqn:Er.
    exists [InflateReset ret'].
    destruct (negb (ret' =? Z_OK)); simpl;
      repeat split; eauto; discriminate.
  - exists []. simpl. rewrite app_nil_r.
    repeat split; auto; try discriminate.
    + simpl in E1. apply negb_false_iff, Z.eqb_eq in E1. exact E1.
    + intros _ ->. discriminate.
Qed.

End ReaderFacts.

Section ReaderRounds.
Context {IE : InflateEngine} {SR : Source}.

(** What a round adds to the log obeys the order of calls, and a round that
    does not panic stops at an end-of-stream answer. *)
Definition round_ok (z : reader) (r : round) : Prop :=
  exists l s,
    r_calls (round_state r) = r_calls z ++ l /\
    pull_discipline (inConsumed z) (inEOF z) false l =
      Some (inConsumed (round_state r), inEOF (round_state r), s) /\
    (is_next r = true ->
       s = false /\ forallb no_end l = true /\ r_err (round_state r) = r_err z) /\
    (is_fault r = false -> stops_at_end l = true).

(** The engine step and what follows it, after the calls [pre] of the same
    round. *)
Lemma Read_step_ok (z z1 : reader) (pre : list call) (fresh : bool)
    (n ret outLen inC : Z) (zs' : izs) (done out : list byte) (c e : bool) :
  r_calls z1 = r_calls z ++ pre ->
  r_err z1 = r_err z ->
  forallb no_end pre = true ->
  (forall l', stops_at_end (pre ++ l') = stops_at_end l') ->
  (forall l', pull_discipline (inConsumed z) (inEOF z) false (pre ++ l') =
              pull_discipline c e fresh l') ->
  (if fresh then true else negb c) = true ->
  inEOF z1 = e ->
  round_ok z (Read_after (r_log (Inflate fresh n ret inC) (r_set_zs zs' z1))
                         done out ret outLen inC).
Proof.
  intros Hc Herr Hpre Hstop Hdisc Hfresh He.
  set (z2 := r_log (Inflate fresh n ret inC) (r_set_zs zs' z1)).
  destruct (Read_after_shape z2 done out ret outLen inC)
    as (l & Hl & Hcons & Heof & _ & _ & Hshape & Hnext & Hend).
  set (r := Read_after z2 done out ret outLen inC) in *.
  exists (pre ++ Inflate fresh n ret inC :: l), false.
  split; [| split; [| split]].
  - rewrite Hl. simpl. rewrite Hc, <- !app_assoc. reflexivity.
  - rewrite Hdisc. simpl.
    replace (if fresh then fresh else negb c) with true
      by (destruct fresh; [reflexivity | symmetry; exact Hfresh]).
    rewrite Hcons, Heof. simpl. rewrite He.
    destruct Hshape as [-> | (r' & -> & _)]; reflexivity.
  - intros Hn. destruct (Hnext Hn) as (Hret & -> & Herr2).
    split; [reflexivity |]. split.
    + rewrite forallb_app, Hpre. simpl. rewrite Hret. reflexivity.
    + rewrite Herr2. simpl. exact Herr.
  - intros Hf. rewrite Hstop. simpl.
    destruct (ret =? Z_STREAM_END) eqn:E.
    + apply Z.eqb_eq in E. destruct (Hend Hf E) as (r' & ->). reflexivity.
    + destruct Hshape as [-> | (r' & _ & Hr)]; [reflexivity |].
      apply Z.eqb_neq in E. contradiction.
Qed.

Lemma Read_staged_ok (z z1 : reader) (n : Z) (err : option error)
    (done out : list byte) :
  inConsumed z = true -> inEOF z = false ->
  r_calls z1 = r_calls z ++ [SrcRead n err] ->
  r_err z1 = r_err z ->
  inConsumed z1 = true ->
  inEOF z1 = match err with Some EOF => true | _ => false end ->
  round_ok z (Read_staged z1 n done out).
Proof.
  intros Hc He Hlog Herr Hc1 He1. unfold Read_staged.
  assert (Hflags : pull_discipline (inConsumed z) (inEOF z) false [SrcRead n err] =
                   Some (inConsumed z1, inEOF z1, true)).
  { simpl. rewrite Hc, He, Hc1, He1. reflexivity. }
  destruct (n =? 0).
  { destruct (negb (inEOF z1)).
    - exists [SrcRead n err], true. simpl round_state.
      repeat split; try assumption; try discriminate.
    - exists [SrcRead n err], true. simpl round_state.
      repeat split; try assumption; try discriminate. }
  destruct (len (inBuf z1) =? 0).
  { exists [SrcRead n err], true. simpl round_state.
    repeat split; try assumption; try discriminate. }
  destruct (zs_inflate _ _ _ _) as [[[[ret zs'] w] outLen] inC].
  eapply Read_step_ok with (pre := [SrcRead n err]) (c := true);
    try eassumption; try reflexivity.
  intros l'. simpl. rewrite Hc, He. reflexivity.
Qed.

Lemma Read_round_ok (z : reader) (done out : list byte) :
  round_ok z (Read_round z done out).
Proof.
  unfold Read_round.
  destruct (inConsumed z) eqn:Hc; simpl.
  - destruct (inEOF z) eqn:He.
    + exists [], false. simpl. rewrite app_nil_r, Hc, He.
      repeat split; try reflexivity; discriminate.
    + destruct (src_read (r_in z) (len (inBuf z))) as [[s' data] err] eqn:Es.
      set (z1 := r_log (SrcRead (len data) err) (r_pulled s' data z)).
      destruct err as [e |].
      * destruct (is_EOF e) eqn:Ee; simpl.
        -- apply Read_staged_ok with (err := Some e);
             try assumption; try reflexivity.
           destruct e; try discriminate; reflexivity.
        -- exists [SrcRead (len data) (Some e)], true. simpl.
           rewrite Hc, He. simpl.
           repeat split; try reflexivity; try discriminate.
           destruct e; try discriminate; reflexivity.
      * apply Read_staged_ok with (err := None); try assumption; reflexivity.
  - destruct (zs_inflate _ _ _ _) as [[[[ret zs'] w] outLen] inC].
    eapply Read_step_ok with (pre := []) (c := false);
      try reflexivity.
    + simpl. now rewrite app_nil_r.
    + intros l'. simpl. now rewrite Hc.
Qed.

End ReaderRounds.

Section ReaderLoop.
Context {IE : InflateEngine} {SR : Source}.

Lemma reader_Read_state (fuel : nat) (z : reader) (orgOut : list byte) :
  state_of (reader_Read fuel z orgOut) = state_of (Read_loop fuel z [] orgOut).
Proof.
  unfold reader_Read.
  destruct (Read_loop fuel z [] orgOut) as [[[z1 d1] o1] z2 | z2 | z2] eqn:E;
    try reflexivity.
  simpl. revert E. generalize (@nil byte). generalize orgOut. revert z.
  induction fuel as [| fuel IH]; intros z out done; simpl.
  - destruct (Read_guard z out); [discriminate |].
    intros H. inversion H; subst. reflexivity.
  - destruct (Read_guard z out).
    + destruct (Read_round z done out) as [[[z3 d3] o3] | [[z3 d3] o3] | z3].
      * apply IH.
      * intros H. inversion H; subst. reflexivity.
      * discriminate.
    + intros H. inversion H; subst. reflexivity.
Qed.

(** The calls of the whole loop obey the order, and a loop that comes to its
    end without a panic stops at an end-of-stream answer. *)
Lemma Read_loop_ok (fuel : nat) (z : reader) (done out : list byte) :
  exists l s,
    r_calls (state_of (Read_loop fuel z done out)) = r_calls z ++ l /\
    pull_discipline (inConsumed z) (inEOF z) false l =
      Some (inConsumed (state_of (Read_loop fuel z done out)),
            inEOF (state_of (Read_loop fuel z done out)), s) /\
    (forall v z', Read_loop fuel z done out = Done v z' -> stops_at_end l = true).
Proof.
  revert z done out. induction fuel as [| fuel IH]; intros z done out; simpl.
  - destruct (Read_guard z out); exists [], false; simpl; rewrite app_nil_r;
      repeat split; reflexivity.
  - destruct (Read_guard z out);
      [| exists [], false; simpl; rewrite app_nil_r; repeat split; reflexivity].
    destruct (Read_round_ok z done out) as (l1 & s1 & Hl1 & Hd1 & Hn1 & Hf1).
    destruct (Read_round z done out) as [[[z1 d1] o1] | [[z1 d1] o1] | z1];
      simpl in *.
    + destruct (Hn1 eq_refl) as (-> & Hno & _).
      destruct (IH z1 d1 o1) as (l2 & s2 & Hl2 & Hd2 & Hs2).
      exists (l1 ++ l2), s2. split; [| split].
      * rewrite Hl2, Hl1, app_assoc. reflexivity.
      * rewrite (pull_discipline_app l1 l2 _ _ _ _ _ _ Hd1). exact Hd2.
      * intros v z' H. rewrite stops_at_end_app by exact Hno. eapply Hs2, H.
    + exists l1, s1. repeat split; try assumption. intros _ _ _. now apply Hf1.
    + exists l1, s1. repeat split; try assumption. discriminate.
Qed.

(** C8: the calls that [Read] makes follow the flags of the reader: the
    source is pulled only when [inConsumed] holds (the engine has used up
    what was staged) and [inEOF] does not; once [inEOF] is set no pull
    follows, and the engine is stepped with no fresh input apart from the
    bytes that came with the end of input.  The flags the order ends with
    are those of the reader after the call, so the same holds for the next
    call. *)
Theorem Read_pulls_only_when_consumed_and_not_after_EOF :
  forall (fuel : nat) (z : reader) (orgOut : list byte),
  exists l s,
    r_calls (state_of (reader_Read fuel z orgOut)) = r_calls z ++ l /\
    pull_discipline (inConsumed z) (inEOF z) false l =
      Some (inConsumed (state_of (reader_Read fuel z orgOut)),
            inEOF (state_of (reader_Read fuel z orgOut)), s).
Proof.
  intros fuel z orgOut. rewrite reader_Read_state.
  destruct (Read_loop_ok fuel z [] orgOut) as (l & s & Hl & Hd & _).
  exists l, s. split; assumption.
Qed.

End ReaderLoop.

Section ReaderStreamEnd.
Context {IE : InflateEngine} {SR : Source}.

(** Take a round apart: one goal per path through the body of the loop. *)
Ltac round_paths :=
  unfold Read_round, Read_staged, Read_after;
  repeat match goal with
         | |- context [if ?c then _ else _] => destruct c eqn:?
         | |- context [let '(_, _) := ?e in _] => destruct e as [? ?] eqn:?
         | |- context [match ?e with Some _ => _ | None => _ end] =>
             destruct e eqn:?
         end.

(** Name the calls that a path has added to the log. *)
Ltac new_calls :=
  eexists; split;
  [rewrite <- ?app_assoc; first [reflexivity | symmetry; apply app_nil_r] |].

(** Find the call in the list a path has added. *)
Ltac which_call :=
  repeat match goal with
         | H : _ \/ _ |- _ => destruct H
         | H : False |- _ => destruct H
         | H : Inflate _ _ _ _ = Inflate _ _ _ _ |- _ => inversion H; subst; clear H
         | H : SrcRead _ _ = SrcRead _ _ |- _ => inversion H; subst; clear H
         | H : _ = Inflate _ _ _ _ |- _ => discriminate H
         | H : _ = SrcRead _ _ |- _ => discriminate H
         end.

(** What a round that meets the end of a stream leaves behind. *)
Definition end_facts (z : reader) (r : round) (l : list call) : Prop :=
  forall f k c,
    In (Inflate f k Z_STREAM_END c) l ->
    is_next r = false /\
    (is_fault r = false ->
     inConsumed (round_state r) = negb (c =? 0) /\
     exists zs ret,
       zs_inflate_reset zs = (ret, r_zs (round_state r)) /\
       In (InflateReset ret) l /\
       (ret = Z_OK -> r_err (round_state r) = r_err z)).

Lemma Read_round_end (z : reader) (done out : list byte) :
  exists l,
    r_calls (round_state (Read_round z done out)) = r_calls z ++ l /\
    end_facts z (Read_round z done out) l.
Proof.
  unfold end_facts. round_paths; simpl; new_calls;
    simpl; intros f k c Hin; which_call;
    try (exfalso; simpl in *; discriminate).
  all: split; [reflexivity |]; intros Hf; try discriminate Hf;
    (split; [reflexivity |]);
    match goal with
    | H : zs_inflate_reset ?zs = (?r, ?i)
      |- exists zs' ret, zs_inflate_reset zs' = (ret, ?i) /\ _ =>
        exists zs, r; split; [exact H |]; split;
        [simpl; tauto
        | intros Hok; subst; simpl in *; first [reflexivity | discriminate]]
    end.
Qed.

Lemma Read_guard_err (z : reader) (out : list byte) :
  Read_guard z out = true -> r_err z = None /\ 0 < len out.
Proof.
  unfold Read_guard. destruct (r_err z); [discriminate |].
  intros H. apply Z.gtb_lt in H. split; [reflexivity | lia].
Qed.

(** The same for the whole loop, when it comes to its end. *)
Lemma Read_loop_end (fuel : nat) (z : reader) (done out : list byte) :
  exists l,
    r_calls (state_of (Read_loop fuel z done out)) = r_calls z ++ l /\
    forall v z', Read_loop fuel z done out = Done v z' ->
    forall f k c,
      In (Inflate f k Z_STREAM_END c) l ->
      inConsumed z' = negb (c =? 0) /\
      exists zs ret,
        zs_inflate_reset zs = (ret, r_zs z') /\
        In (InflateReset ret) l /\
        (ret = Z_OK -> r_err z' = None).
Proof.
  revert z done out. induction fuel as [| fuel IH]; intros z done out; simpl.
  - destruct (Read_guard z out); exists []; simpl; rewrite app_nil_r;
      (split; [reflexivity | intros ? ? _ ? ? ? []]).
  - destruct (Read_guard z out) eqn:G;
      [| exists []; simpl; rewrite app_nil_r;
         (split; [reflexivity | intros ? ? _ ? ? ? []])].
    apply Read_guard_err in G. destruct G as [Gerr _].
    destruct (Read_round_end z done out) as (l1 & Hl1 & He1).
    destruct (Read_round z done out) as [[[z1 d1] o1] | [[z1 d1] o1] | z1];
      simpl in *.
    + destruct (IH z1 d1 o1) as (l2 & Hl2 & He2).
      exists (l1 ++ l2). split; [rewrite Hl2, Hl1, app_assoc; reflexivity |].
      intros v z' H f k c Hin. apply in_app_or in Hin. destruct Hin as [Hin | Hin].
      * destruct (He1 f k c Hin) as [Hn _]. discriminate.
      * destruct (He2 v z' H f k c Hin) as (Hc & zs & ret & Hr & Hi & Ho).
        split; [exact Hc |]. exists zs, ret. repeat split; try assumption.
        apply in_or_app. now right.
    + exists l1. split; [exact Hl1 |].
      intros v z' H f k c Hin. inversion H; subst; simpl in *.
      destruct (He1 f k c Hin) as [_ Hf]. destruct (Hf eq_refl) as (Hc & zs & ret & Hr & Hi & Ho).
      split; [exact Hc |]. exists zs, ret. repeat split; try assumption.
      intros Hok. specialize (Ho Hok). simpl in Ho. congruence.
    + exists l1. split; [exact Hl1 | discriminate].
Qed.

(** A reader that still has input in the engine steps the engine first,
    with no fresh input. *)
Lemma Read_resumes (fuel : nat) (z : reader) (out : list byte) :
  r_err z = None -> inConsumed z = false -> 0 < len out ->
  exists ret c l,
    r_calls (state_of (reader_Read (S fuel) z out)) =
      r_calls z ++ Inflate false 0 ret c :: l.
Proof.
  intros Herr Hc Hout. rewrite reader_Read_state. simpl.
  unfold Read_guard. rewrite Herr.
  replace (len out >? 0) with true by (symmetry; apply Z.gtb_lt; lia).
  unfold Read_round. rewrite Hc. simpl.
  destruct (zs_inflate _ _ _ _) as [[[[ret zs'] w] outLen] inC].
  set (z2 := r_log (Inflate false 0 ret inC) (r_set_zs zs' z)).
  destruct (Read_after_shape z2 [] (store w out) ret outLen inC)
    as (la & Hla & _).
  exists ret, inC.
  destruct (Read_after z2 [] (store w out) ret outLen inC)
    as [[[z1 d1] o1] | [[z1 d1] o1] | z1]; simpl in *.
  - destruct (Read_loop_ok fuel z1 d1 o1) as (l2 & s2 & Hl2 & _).
    exists (la ++ l2). rewrite Hl2, Hla, <- !app_assoc. reflexivity.
  - exists la. rewrite Hla, <- app_assoc. reflexivity.
  - exists la. rewrite Hla, <- app_assoc. reflexivity.
Qed.

(** C4: in the calls of one [Read], an end-of-stream answer of the engine
    is followed by the reset of the engine and by nothing more: no engine
    step of this call comes after the end of a stream.  The reader is left
    with the engine state that the reset answered and with the engine's
    report on its input; when input is left in the engine, the next [Read]
    begins with an engine step on that input. *)
Theorem Read_stops_at_stream_end :
  forall (fuel : nat) (z : reader) (orgOut : list byte)
         (n : Z) (err : option error) (buf : list byte) (z' : reader),
    reader_Read fuel z orgOut = Done (n, err, buf) z' ->
    exists l,
      r_calls z' = r_calls z ++ l /\
      stops_at_end l = true /\
      forall f k c,
        In (Inflate f k Z_STREAM_END c) l ->
        inConsumed z' = negb (c =? 0) /\
        (exists zs ret,
            zs_inflate_reset zs = (ret, r_zs z') /\
            In (InflateReset ret) l /\
            (ret = Z_OK -> err = None)) /\
        (c = 0 -> err = None ->
         forall (fuel2 : nat) (out2 : list byte),
           0 < len out2 ->
           exists ret2 c2 l2,
             r_calls (state_of (reader_Read (S fuel2) z' out2)) =
               r_calls z' ++ Inflate false 0 ret2 c2 :: l2).
Proof.
  intros fuel z orgOut n err buf z' H.
  unfold reader_Read in H.
  destruct (Read_loop fuel z [] orgOut) as [[[z1 d1] o1] z2 | z2 | z2] eqn:E;
    try discriminate.
  inversion H; subst; clear H.
  destruct (Read_loop_ok fuel z [] orgOut) as (l & s & Hl & _ & Hs).
  destruct (Read_loop_end fuel z [] orgOut) as (l' & Hl' & He).
  assert (Hz : z2 = z').
  { pose proof (reader_Read_state fuel z orgOut) as R.
    unfold reader_Read in R. rewrite E in R. simpl in R. symmetry. exact R. }
  subst z2. rewrite E in Hl, Hl'. simpl in Hl, Hl'.
  assert (l' = l) by (eapply app_inv_head; rewrite <- Hl, <- Hl'; reflexivity).
  subst l'. exists l. split; [exact Hl |]. split; [eapply Hs; exact E |].
  intros f k c Hin.
  destruct (He _ _ E f k c Hin) as (Hc & zs & ret & Hr & Hi & Ho).
  split; [exact Hc |]. split.
  - exists zs, ret. repeat split; assumption.
  - intros -> Herr fuel2 out2 Hout.
    apply Read_resumes; [exact Herr | | exact Hout].
    rewrite Hc. reflexivity.
Qed.

End ReaderStreamEnd.

Section ReaderErrors.
Context {IE : InflateEngine} {SR : Source}.

Ltac round_paths :=
  unfold Read_round, Read_staged, Read_after;
  repeat match goal with
         | |- context [if ?c then _ else _] => destruct c eqn:?
         | |- context [let '(_, _) := ?e in _] => destruct e as [? ?] eqn:?
         | |- context [match ?e with Some _ => _ | None => _ end] =>
             destruct e eqn:?
         end.

Ltac new_calls :=
  eexists; split;
  [rewrite <- ?app_assoc; first [reflexivity | symmetry; apply app_nil_r] |].

Ltac which_call :=
  repeat match goal with
         | H : _ \/ _ |- _ => destruct H
         | H : False |- _ => destruct H
         | H : Inflate _ _ _ _ = Inflate _ _ _ _ |- _ => inversion H; subst; clear H
         | H : SrcRead _ _ = SrcRead _ _ |- _ => inversion H; subst; clear H
         | H : _ = Inflate _ _ _ _ |- _ => discriminate H
         | H : _ = SrcRead _ _ |- _ => discriminate H
         end.

Ltac bool_facts :=
  repeat match goal with
         | H : (_ =? _) = true |- _ => apply Z.eqb_eq in H
         | H : (_ =? _) = false |- _ => apply Z.eqb_neq in H
         | H : negb _ = true |- _ => apply negb_true_iff in H
         | H : negb _ = false |- _ => apply negb_false_iff in H
         | H : _ && _ = true |- _ => apply andb_true_iff in H; destruct H
         | H : _ && _ = false |- _ => apply andb_false_iff in H; destruct H
         end.

(** The reasons for which a round panics, told by its last call [c]: the
    source answered no bytes and no error; the source answered bytes for a
    staging buffer of length zero; the engine left in [*outLen] a value
    that is not between zero and [len(out)]. *)
Definition fault_call (z : reader) (c : call) : Prop :=
  c = SrcRead 0 None \/
  (exists k e, c = SrcRead k e /\ k <> 0 /\ len (inBuf z) = 0) \/
  (exists f k ret ic, c = Inflate f k ret ic /\ (ret = Z_OK \/ ret = Z_STREAM_END)).

(** The failures that the calls [l] of a [Read] have met are in the error
    that it records. *)
Definition errors_recorded (l : list call) (z' : reader) : Prop :=
  (forall k e, In (SrcRead k (Some e)) l -> is_EOF e = false ->
               r_err z' = Some e) /\
  (forall f k ret c, In (Inflate f k ret c) l ->
                     ret <> Z_OK -> ret <> Z_STREAM_END ->
                     r_err z' <> None).

Definition err_facts (z : reader) (r : round) (l : list call) : Prop :=
  (is_next r = true ->
     len (inBuf (round_state r)) = len (inBuf z)) /\
  (is_next r = false -> is_fault r = false ->
     (forall k e, In (SrcRead k (Some e)) l -> is_EOF e = false ->
                  r_err (round_state r) = Some e) /\
     (forall f k ret c, In (Inflate f k ret c) l ->
                        ret <> Z_OK -> ret <> Z_STREAM_END ->
                        r_err (round_state r) <> None)) /\
  (is_next r = true ->
     (forall k e, In (SrcRead k (Some e)) l -> is_EOF e = true) /\
     (forall f k ret c, In (Inflate f k ret c) l -> ret = Z_OK)) /\
  (is_fault r = true -> exists l0 c, l = l0 ++ [c] /\ fault_call z c).

Lemma Read_round_errors (z : reader) (done out : list byte) :
  exists l,
    r_calls (round_state (Read_round z done out)) = r_calls z ++ l /\
    err_facts z (Read_round z done out) l.
Proof.
  unfold err_facts. round_paths; simpl; new_calls; simpl.
  all: split;
    [intros Hn; try discriminate Hn; try reflexivity; try apply len_store |].
  all: split;
    [intros Hn Hf; try discriminate Hn; try discriminate Hf;
     split; intros; which_call;
     try reflexivity; try discriminate; bool_facts;
     try (apply zlibReturnCodeToError_nonzero; unfold Z_OK in *; assumption);
     try (exfalso; simpl in *; congruence) |].
  all: split;
    [intros Hn; try discriminate Hn;
     split; intros; which_call; bool_facts;
     try (exfalso; simpl in *; congruence); try assumption; try reflexivity |].
  all: intros Hf; try discriminate Hf.
  all: match goal with
       | |- exists l0 c, [?x] = _ /\ _ => exists [], x
       | |- exists l0 c, [?x; ?y] = _ /\ _ => exists [x], y
       end; (split; [reflexivity |]); unfold fault_call; bool_facts.
  all: simpl in *; try discriminate; try congruence.
  all: try (rewrite len_store in *).
  all: first
   [ right; right; do 4 eexists; split; [reflexivity |];
     first [left; assumption | right; assumption]
   | left; match goal with H : len _ = 0 |- _ => rewrite H end; reflexivity
   | right; left; do 2 eexists; split; [reflexivity |]; split; assumption ].
Qed.

Lemma Read_loop_errors (fuel : nat) (z : reader) (done out : list byte) :
  exists l,
    r_calls (state_of (Read_loop fuel z done out)) = r_calls z ++ l /\
    match Read_loop fuel z done out with
    | Done _ z' => errors_recorded l z'
    | Panic _ => exists l0 c, l = l0 ++ [c] /\ fault_call z c
    | Timeout _ => True
    end.
Proof.
  revert z done out. induction fuel as [| fuel IH]; intros z done out; simpl.
  - destruct (Read_guard z out); exists []; simpl; rewrite app_nil_r;
      (split; [reflexivity |]); [exact I |].
    split; intros; contradiction.
  - destruct (Read_guard z out);
      [| exists []; simpl; rewrite app_nil_r; split; [reflexivity |];
         split; intros; contradiction].
    destruct (Read_round_errors z done out) as (l1 & Hl1 & Hb & Hd & Hn & Hf).
    destruct (Read_round z done out) as [[[z1 d1] o1] | [[z1 d1] o1] | z1];
      simpl in *.
    + destruct (IH z1 d1 o1) as (l2 & Hl2 & H2).
      destruct (Hn eq_refl) as [Hn1 Hn2]. specialize (Hb eq_refl).
      exists (l1 ++ l2). split; [rewrite Hl2, Hl1, app_assoc; reflexivity |].
      destruct (Read_loop fuel z1 d1 o1) as [v z' | z' | z']; [| | exact I].
      * destruct H2 as [Ha Hc]. split.
        -- intros k e Hin He. apply in_app_or in Hin. destruct Hin as [Hin | Hin].
           ++ rewrite (Hn1 k e Hin) in He. discriminate.
           ++ now apply (Ha k e).
        -- intros f k ret c Hin Hok Hend. apply in_app_or in Hin.
           destruct Hin as [Hin | Hin].
           ++ elim Hok. now apply (Hn2 f k ret c).
           ++ now apply (Hc f k ret c).
      * destruct H2 as (l0 & c & -> & Hc). exists (l1 ++ l0), c.
        split; [now rewrite app_assoc |].
        unfold fault_call in *. rewrite <- Hb. exact Hc.
    + exists l1. split; [exact Hl1 |]. now apply Hd.
    + exists l1. split; [exact Hl1 |]. now apply Hf.
Qed.

(** A pull that answers no bytes and no error makes [Read] panic (line 89). *)
Lemma Read_empty_pull_panics (fuel : nat) (z : reader) (out : list byte) (s' : src) :
  r_err z = None -> 0 < len out ->
  inConsumed z = true -> inEOF z = false ->
  src_read (r_in z) (len (inBuf z)) = (s', [], None) ->
  reader_Read (S fuel) z out = Panic (r_log (SrcRead 0 None) (r_pulled s' [] z)).
Proof.
  intros Herr Hout Hc He Hs. unfold reader_Read. simpl.
  unfold Read_guard. rewrite Herr.
  replace (len out >? 0) with true by (symmetry; apply Z.gtb_lt; lia).
  unfold Read_round. rewrite Hc, He, Hs. simpl.
  unfold Read_staged. simpl. rewrite He. reflexivity.
Qed.

(** Once an error is recorded, [Read] answers it at once: no pull, no engine
    step, no change to the reader or to the caller's buffer. *)
Lemma reader_Read_poisoned (fuel : nat) (z : reader) (out : list byte) (e : error) :
  r_err z = Some e -> reader_Read fuel z out = Done (0, Some e, out) z.
Proof.
  intros H. unfold reader_Read.
  assert (L : Read_loop fuel z [] out = Done (z, [], out) z).
  { destruct fuel; simpl; unfold Read_guard; rewrite H; reflexivity. }
  rewrite L, H, Z.sub_diag. reflexivity.
Qed.

(** [Close] of a reader answers the recorded error, unless it is [io.EOF]. *)
Lemma reader_Close_poisoned (z : reader) (e : error) :
  r_err z = Some e -> is_EOF e = false ->
  fst (reader_Close z) = Some e /\
  r_calls (snd (reader_Close z)) = r_calls z ++ [InflateEnd].
Proof.
  intros H He. unfold reader_Close. simpl. rewrite H.
  destruct e; try discriminate; split; reflexivity.
Qed.

(** C6, amended: the failures that the source and the engine report are
    answered as errors: an error of the source other than [io.EOF] is the
    error that [Read] returns, and an engine status other than [Z_OK] and
    [Z_STREAM_END] makes [Read] return an error that is not nil.  A pull that
    answers no bytes and no error before the end of input is not answered as
    an error: [Read] panics.  [Read] panics in no other way, as long as the
    source stores no bytes in a staging buffer of length zero and the engine
    leaves a count of free output bytes that lies within the buffer. *)
Theorem Read_returns_errors_but_panics_on_empty_pull :
  forall (fuel : nat) (z : reader) (orgOut : list byte),
    (exists l,
        r_calls (state_of (reader_Read fuel z orgOut)) = r_calls z ++ l /\
        match reader_Read fuel z orgOut with
        | Done (n, err, buf) z' => err = r_err z' /\ errors_recorded l z'
        | Panic _ => exists l0 c, l = l0 ++ [c] /\ fault_call z c
        | Timeout _ => True
        end) /\
    (forall s' : src,
        r_err z = None -> 0 < len orgOut ->
        inConsumed z = true -> inEOF z = false ->
        src_read (r_in z) (len (inBuf z)) = (s', [], None) ->
        reader_Read (S fuel) z orgOut =
          Panic (r_log (SrcRead 0 None) (r_pulled s' [] z))).
Proof.
  intros fuel z orgOut. split.
  - destruct (Read_loop_errors fuel z [] orgOut) as (l & Hl & H).
    exists l. rewrite reader_Read_state. split; [exact Hl |].
    pose proof (reader_Read_state fuel z orgOut) as S.
    unfold reader_Read in *.
    destruct (Read_loop fuel z [] orgOut) as [[[z1 d1] o1] z2 | z2 | z2];
      simpl in *; try assumption.
    subst z2. split; [reflexivity | exact H].
  - intros s'. apply Read_empty_pull_panics.
Qed.

End ReaderErrors.

(** ** Callers *)

Section Callers.
Context {IE : InflateEngine} {SR : Source} {DE : DeflateEngine} {SK : Sink}.

(** A caller that reads with a buffer of [size] bytes until [Read] answers
    an error, as [io.ReadAll] does: the bytes read, and the error that ended
    the reading.  [calls] bounds the number of calls. *)
Fixpoint read_all (calls fuel : nat) (z : reader) (size : Z)
  : option (list byte * error) :=
  match calls with
  | O => None
  | S calls' =>
      match reader_Read fuel z (make size) with
      | Done (n, err, buf) z' =>
          let got := firstn (Z.to_nat n) buf in
          match err with
          | Some e => Some (got, e)
          | None =>
              match read_all calls' fuel z' size with
              | Some (rest, e) => Some (got ++ rest, e)
              | None => None
              end
          end
      | Panic _ => None
      | Timeout _ => None
      end
  end.

(** A caller that writes [data] with one call of [Write] and closes. *)
Definition write_and_close (fuel : nat) (z : writer) (data : list byte)
  : outcome writer (option error) :=
  match writer_Write fuel z data with
  | Done (_, None) z' => writer_Close fuel z'
  | Done (_, Some e) z' => Done (Some e) z'
  | Panic z' => Panic z'
  | Timeout z' => Timeout z'
  end.

End Callers.

(** ** Runs on the reference engine *)

Section Runs.

Local Existing Instance Ref.Deflater.
Local Existing Instance Ref.Inflater.
Local Existing Instance Ref.BufferSink.
Local Existing Instance Ref.BytesSource.

(** The writer that [NewWriterLevel] makes over a sink in memory whose
    writes fail as [script] says. *)
Definition ex_writer (script : list (option error)) (bufSize : Z) : writer :=
  mkWriter (script, []) Ref.d_init (make bufSize) None
           [DeflateInit (-1) 0; SetFinalizer].

(** The reader that [NewReaderBuffer] makes over [input]. *)
Definition ex_reader (input : list byte) (bufSize : Z) : reader :=
  mkReader input true false Ref.i_init (make bufSize) None [InflateInit 0].

Lemma ex_writer_new (bufSize : Z) :
  0 <= bufSize ->
  NewWriterLevel ([], []) (-1) bufSize = Some (Some (ex_writer [] bufSize), None).
Proof.
  intros H. unfold NewWriterLevel.
  replace (bufSize <? 0) with false by (symmetry; apply Z.ltb_ge; exact H).
  reflexivity.
Qed.

Lemma ex_reader_new (input : list byte) (bufSize : Z) :
  0 <= bufSize ->
  NewReaderBuffer input bufSize = Some (Some (ex_reader input bufSize), None).
Proof.
  intros H. unfold NewReaderBuffer.
  replace (bufSize <? 0) with false by (symmetry; apply Z.ltb_ge; exact H).
  reflexivity.
Qed.

(** Write [data] and close over a sink in memory, then read what the sink
    holds with caller buffers of [osize] bytes until an error. *)
Definition round_trip (calls fuel : nat) (wsize rsize osize : Z) (data : list byte)
  : option (list byte * error) :=
  match write_and_close fuel (ex_writer [] wsize) data with
  | Done None z => read_all calls fuel (ex_reader (snd (w_out z)) rsize) osize
  | _ => None
  end.

Definition hello_world : list byte :=
  [x68; x65; x6c; x6c; x6f; x20; x77; x6f; x72; x6c; x64].

(** The scenario of the specification: "hello world" through a writer with
    a staging buffer of 8 bytes, read back with a caller buffer of 4 bytes. *)
Example round_trip_hello_world :
  round_trip 20 20 8 8 4 hello_world = Some (hello_world, EOF).
Proof. vm_compute. reflexivity. Qed.

Example round_trip_empty :
  round_trip 20 20 8 8 4 [] = Some ([], EOF).
Proof. vm_compute. reflexivity. Qed.

(** Sizes at the edge of the staging buffer: 8 and 9 bytes through buffers
    of 8. *)
Example round_trip_buffer_size :
  round_trip 20 20 8 8 8 (firstn 8 hello_world) = Some (firstn 8 hello_world, EOF) /\
  round_trip 20 20 8 8 8 (firstn 9 hello_world) = Some (firstn 9 hello_world, EOF).
Proof. split; vm_compute; reflexivity. Qed.

End Runs.

Section RunsOfTheWriter.

Local Existing Instance Ref.Deflater.
Local Existing Instance Ref.BufferSink.

Definition abcd : list byte := [x61; x62; x63; x64].
Definition efgh : list byte := [x65; x66; x67; x68].

(** A first [Write] whose push the sink refuses, and the [Write] after it. *)
Definition refused_write : outcome writer (Z * option error) :=
  writer_Write 5 (ex_writer [Some (ErrIO 1)] 8) abcd.

Definition write_after_refusal : outcome writer (Z * option error) :=
  writer_Write 5 (state_of refused_write) efgh.

(** C2: the writer does not keep an error.  Over a sink that refuses the
    first write with an error, the first [Write] answers that error and
    leaves the [err] field nil; the next [Write] steps the engine again,
    pushes to the sink and answers [(4, nil)].  (The reader does keep it:
    [reader_Read_poisoned], [reader_Close_poisoned].) *)
Theorem Writer_forgets_error :
  refused_write = Done (0, Some (ErrIO 1)) (state_of refused_write) /\
  w_err (state_of refused_write) = None /\
  write_after_refusal = Done (4, None) (state_of write_after_refusal) /\
  w_calls (state_of write_after_refusal) =
    w_calls (state_of refused_write) ++
    [Deflate true 4 0; SinkWrite (Ref.enc efgh); Deflate false 0 0; SinkWrite []] /\
  snd (w_out (state_of write_after_refusal)) = Ref.enc efgh.
Proof. repeat split; vm_compute; reflexivity. Qed.

(** Three bytes written through a staging buffer of two bytes: the engine
    keeps them in its window. *)
Definition three_written : outcome writer (Z * option error) :=
  writer_Write 5 (ex_writer [] 2) [x61; x62; x63].

Definition three_flushed : outcome writer (option error) :=
  writer_Flush (state_of three_written).

(** C5: [Flush] steps the engine once.  After [Write] of three bytes through
    a staging buffer of two bytes, the flush of the engine has seven bytes to
    hand out; [Flush] answers nil with the first two at the sink and the
    other five still in the engine. *)
Theorem Flush_pushes_one_buffer_only :
  three_written = Done (3, None) (state_of three_written) /\
  three_flushed = Done None (state_of three_flushed) /\
  snd (w_out (state_of three_flushed)) = [x01; x61] /\
  Ref.d_pending (w_zs (state_of three_flushed)) = [x01; x62; x01; x63; x02].
Proof. repeat split; vm_compute; reflexivity. Qed.

Lemma len_cons {A : Type} (a : A) (s : list A) : len (a :: s) = len s + 1.
Proof. unfold len. simpl length. lia. Qed.

(** C3: [Write] hands the engine [C.int(len(in))] as the number of bytes.
    For a slice of 2^32 + 1 bytes that number is 1: the engine takes the
    first byte, the sink gets nothing, and [Write] answers
    [(4294967297, nil)]. *)
Theorem Write_of_4GiB_tells_engine_one_byte :
  forall (b : byte) (data : list byte),
    len data = 2 ^ 32 ->
    writer_Write 5 (ex_writer [] 8) (b :: data) =
      Done (2 ^ 32 + 1, None)
           (mkWriter ([], []) (Ref.mkD [b] [] false false false false)
                     (make 8) None
                     [DeflateInit (-1) 0; SetFinalizer; Deflate true 1 0;
                      SinkWrite []]).
Proof.
  intros b data H.
  assert (L : len (b :: data) = 2 ^ 32 + 1) by (rewrite len_cons; lia).
  unfold writer_Write. rewrite L. vm_compute. reflexivity.
Qed.

Lemma Write_of_4GiB_tells_engine_one_byte_witness :
  writer_Write 5 (ex_writer [] 8) (x61 :: repeat x00 (Z.to_nat (2 ^ 32))) =
    Done (2 ^ 32 + 1, None)
         (mkWriter ([], []) (Ref.mkD [x61] [] false false false false)
                   (make 8) None
                   [DeflateInit (-1) 0; SetFinalizer; Deflate true 1 0;
                    SinkWrite []]).
Proof.
  apply Write_of_4GiB_tells_engine_one_byte.
  unfold len. rewrite repeat_length. apply Z2Nat.id. lia.
Defined.

End RunsOfTheWriter.

Section RunsOfBoth.

Local Existing Instance Ref.Deflater.
Local Existing Instance Ref.Inflater.
Local Existing Instance Ref.BufferSink.
Local Existing Instance Ref.BytesSource.

(** C1: the round trip loses what [C.int(len(in))] cuts off.  A sequence of
    2^32 + 1 bytes, written with one [Write] and closed, leaves at the sink
    the stream of its first byte; reading that stream to its end yields one
    byte.  (Sequences that fit come back whole: [round_trip_hello_world],
    [round_trip_empty], [round_trip_buffer_size].) *)
Theorem round_trip_of_4GiB_yields_one_byte :
  forall (b : byte) (data : list byte),
    len data = 2 ^ 32 ->
    round_trip 5 5 8 8 4 (b :: data) = Some ([b], EOF) /\
    [b] <> b :: data.
Proof.
  intros b data H. split.
  - assert (L : len (b :: data) = 2 ^ 32 + 1) by (rewrite len_cons; lia).
    unfold round_trip, write_and_close, writer_Write. rewrite L.
    vm_compute. reflexivity.
  - intros E. inversion E as [E']. rewrite <- E' in H. discriminate H.
Qed.

Lemma round_trip_of_4GiB_yields_one_byte_witness :
  round_trip 5 5 8 8 4 (x61 :: repeat x00 (Z.to_nat (2 ^ 32))) = Some ([x61], EOF) /\
  [x61] <> x61 :: repeat x00 (Z.to_nat (2 ^ 32)).
Proof.
  apply round_trip_of_4GiB_yields_one_byte.
  unfold len. rewrite repeat_length. apply Z2Nat.id. lia.
Defined.

End RunsOfBoth.

Section RunsOfTheReader.

Local Existing Instance Ref.Inflater.
Local Existing Instance Ref.BytesSource.

(** Two streams, one after the other: [a], then [b]. *)
Definition two_members : list byte := [x01; x61; x00; x01; x62; x00].

Definition first_read : outcome reader (Z * option error * list byte) :=
  reader_Read 5 (ex_reader two_members 8) (make 4).

Definition second_read : outcome reader (Z * option error * list byte) :=
  reader_Read 5 (state_of first_read) (make 4).

(** With both streams staged and room for four bytes, the first [Read]
    yields the byte of the first stream only, the second that of the
    second. *)
Example Read_one_member_per_call :
  first_read = Done (1, None, [x61; x00; x00; x00]) (state_of first_read) /\
  second_read = Done (1, None, [x62; x00; x00; x00]) (state_of second_read) /\
  r_calls (state_of second_read) =
    [InflateInit 0; SrcRead 6 None; Inflate true 6 1 0; InflateReset 0;
     Inflate false 0 1 1; InflateReset 0].
Proof. repeat split; vm_compute; reflexivity. Qed.

Lemma Read_stops_at_stream_end_witness :
  exists l,
    r_calls (state_of first_read) = r_calls (ex_reader two_members 8) ++ l /\
    stops_at_end l = true /\
    forall f k c,
      In (Inflate f k Z_STREAM_END c) l ->
      inConsumed (state_of first_read) = negb (c =? 0) /\
      (exists zs ret,
          zs_inflate_reset zs = (ret, r_zs (state_of first_read)) /\
          In (InflateReset ret) l /\
          (ret = Z_OK -> @None error = None)) /\
      (c = 0 -> @None error = None ->
       forall (fuel2 : nat) (out2 : list byte),
         0 < len out2 ->
         exists ret2 c2 l2,
           r_calls (state_of (reader_Read (S fuel2) (state_of first_read) out2)) =
             r_calls (state_of first_read) ++ Inflate false 0 ret2 c2 :: l2).
Proof.
  apply (Read_stops_at_stream_end 5 (ex_reader two_members 8) (make 4)
           1 None [x61; x00; x00; x00] (state_of first_read)).
  vm_compute. reflexivity.
Defined.

(** A reader with a staging buffer of length zero over a source in memory:
    the source has nowhere to put bytes and answers [(0, nil)]. *)
Definition no_room_read : outcome reader (Z * option error * list byte) :=
  reader_Read 1 (ex_reader two_members 0) (make 1).

Definition panics {S A : Type} (o : outcome S A) : bool :=
  match o with Panic _ => true | _ => false end.

(** C6, as stated, fails: this [Read] panics. *)
Lemma Read_panics_on_empty_pull : panics no_room_read = true.
Proof. vm_compute. reflexivity. Qed.

Lemma Read_returns_errors_but_panics_on_empty_pull_witness :
  reader_Read 1 (ex_reader two_members 0) (make 1) =
    Panic (r_log (SrcRead 0 None) (r_pulled two_members [] (ex_reader two_members 0))).
Proof.
  apply (proj2 (Read_returns_errors_but_panics_on_empty_pull
                  0 (ex_reader two_members 0) (make 1)) two_members);
    try reflexivity.
Defined.

End RunsOfTheReader.

Section WitnessesOfTheWriter.

Local Existing Instance Ref.Deflater.
Local Existing Instance Ref.Inflater.
Local Existing Instance Ref.BufferSink.
Local Existing Instance Ref.BytesSource.

(** A sink in memory that holds nothing and refuses nothing. *)
Definition empty_sink : @snk Ref.BufferSink := (@nil (option error), @nil byte).

(** A writer that has just been flushed, and one that has been closed. *)
Definition flushed_once : writer := state_of (writer_Flush (ex_writer [] 4)).

Definition closed_empty : writer := state_of (writer_Close 5 (ex_writer [] 4)).

Lemma Flush_recovers_from_buf_error_only_witness :
  writer_Flush flushed_once =
    Done None (w_log (DeflateFlush Z_BUF_ERROR)
                     (w_engine (w_zs flushed_once) [] flushed_once)) /\
  exists e,
    zlibReturnCodeToError (zs_deflate_errno (w_zs closed_empty)) Z_STREAM_ERROR = Some e /\
    writer_Flush closed_empty =
      Done (Some e) (w_log (DeflateFlush Z_STREAM_ERROR)
                           (w_engine (w_zs closed_empty) [] closed_empty)).
Proof.
  split.
  - refine (proj1 (Flush_recovers_from_buf_error_only
                     flushed_once Z_BUF_ERROR (w_zs flushed_once) [] 4 _ _) eq_refl).
    + vm_compute. discriminate.
    + vm_compute. reflexivity.
  - refine (proj2 (Flush_recovers_from_buf_error_only
                     closed_empty Z_STREAM_ERROR (w_zs closed_empty) [] 4 _ _) _ _).
    + vm_compute. discriminate.
    + vm_compute. reflexivity.
    + vm_compute. discriminate.
    + vm_compute. discriminate.
Defined.

(** "hello world" written and closed through a staging buffer of 3 bytes. *)
Definition closed_hello : writer :=
  state_of (writer_Close 20 (run_ops 20 [OpWrite hello_world] (ex_writer [] 3))).

Lemma Close_keeps_engine_and_Reset_reuses_it_witness :
  (exists l, w_calls closed_hello = DeflateInit (C_int (-1)) 0 :: SetFinalizer :: l /\
             ~ In DeflateEnd l) /\
  w_calls (gcWriter closed_hello) = w_calls closed_hello ++ [DeflateEnd] /\
  len (outBuf closed_hello) = 3 /\
  (forall (ret : Z) (zs2 : dzs),
      zs_deflate_reset (w_zs closed_hello) = (ret, zs2) -> ret = Z_OK ->
      writer_Reset closed_hello empty_sink =
        (None, mkWriter empty_sink zs2 (outBuf closed_hello) (w_err closed_hello)
                        (w_calls closed_hello ++ [DeflateReset Z_OK]))).
Proof.
  apply (Close_keeps_engine_and_Reset_reuses_it
           empty_sink (-1) 3 (ex_writer [] 3) [OpWrite hello_world] 20
           closed_hello empty_sink).
  - reflexivity.
  - vm_compute. reflexivity.
Defined.

(** The writer that was closed and reset writes a second stream to the new
    sink; that stream is whole and reads back as what was written. *)
Example Reset_starts_a_new_stream :
  let z2 := snd (writer_Reset closed_hello empty_sink) in
  let z3 := state_of (write_and_close 20 z2 abcd) in
  fst (writer_Reset closed_hello empty_sink) = None /\
  snd (w_out z3) = Ref.enc abcd ++ [Ref.tag_end] /\
  read_all 20 20 (ex_reader (snd (w_out z3)) 8) 4 = Some (abcd, EOF).
Proof. repeat split; vm_compute; reflexivity. Qed.

End WitnessesOfTheWriter.

(** * Further properties of the Go code *)

(** ** The translation of status codes *)

(** [zlibReturnCodeToError] answers nil for [Z_OK] and for no other status,
    though the map [zlibErrors] holds nil for [Z_ERRNO] too. *)
Theorem zlibReturnCodeToError_nil_iff_OK :
  forall (errno r : Z), zlibReturnCodeToError errno r = None <-> r = Z_OK.
Proof.
  intros errno r. split.
  - intros H. destruct (Z.eq_dec r 0) as [E | E]; [exact E |].
    elim (zlibReturnCodeToError_nonzero errno r E H).
  - intros ->. reflexivity.
Qed.

(** Two statuses that are translated to the same error are the same status:
    the error tells the caller which status the engine answered. *)
Theorem zlibReturnCodeToError_tells_statuses_apart :
  forall (errno r1 r2 : Z),
    zlibReturnCodeToError errno r1 = zlibReturnCodeToError errno r2 -> r1 = r2.
Proof.
  intros errno r1 r2.
  unfold zlibReturnCodeToError, zlibErrors,
    Z_OK, Z_STREAM_END, Z_ERRNO, Z_STREAM_ERROR, Z_DATA_ERROR, Z_MEM_ERROR,
    Z_BUF_ERROR, Z_VERSION_ERROR.
  repeat match goal with
         | |- context [?a =? ?b] => destruct (Z.eqb_spec a b)
         end;
    intros H; try discriminate H; try congruence.
Qed.

Lemma zlibReturnCodeToError_tells_statuses_apart_witness :
  Z_DATA_ERROR = Z_DATA_ERROR.
Proof.
  apply (zlibReturnCodeToError_tells_statuses_apart 0 Z_DATA_ERROR Z_DATA_ERROR).
  reflexivity.
Defined.

(** ** The constructors *)

Section Constructors.
Context {DE : DeflateEngine} {SK : Sink} {IE : InflateEngine} {SR : Source}.



End Constructors.

(** ** What [Read] answers *)

Section ReaderAnswers.
Context {IE : InflateEngine} {SR : Source}.

Ltac round_paths :=
  unfold Read_round, Read_staged, Read_after;
  repeat match goal with
         | |- context [if ?c then _ else _] => destruct c eqn:?
         | |- context [let '(_, _) := ?e in _] => destruct e as [? ?] eqn:?
         | |- context [match ?e with Some _ => _ | None => _ end] =>
             destruct e eqn:?
         end.

Ltac bool_facts :=
  repeat match goal with
         | H : (_ =? _) = true |- _ => apply Z.eqb_eq in H
         | H : (_ =? _) = false |- _ => apply Z.eqb_neq in H
         | H : (_ <? _) = false |- _ => apply Z.ltb_ge in H
         | H : negb _ = true |- _ => apply negb_true_iff in H
         | H : negb _ = false |- _ => apply negb_false_iff in H
         | H : _ && _ = true |- _ => apply andb_true_iff in H; destruct H
         | H : _ && _ = false |- _ => apply andb_false_iff in H; destruct H
         | H : _ || _ = false |- _ => apply orb_false_iff in H; destruct H
         end.

Lemma len_firstn_skipn (k : nat) (l : list byte) :
  len (firstn k l) + len (skipn k l) = len l.
Proof. rewrite <- len_app, firstn_skipn. reflexivity. Qed.

(** The answer of [Read], read off the variables of its loop. *)
Lemma reader_Read_done (fuel : nat) (z : reader) (orgOut : list byte)
    (n : Z) (err : option error) (buf : list byte) (z' : reader) :
  reader_Read fuel z orgOut = Done (n, err, buf) z' ->
  exists done out,
    Read_loop fuel z [] orgOut = Done (z', done, out) z' /\
    n = len orgOut - len out /\ err = r_err z' /\ buf = done ++ out.
Proof.
  intros H. pose proof (reader_Read_state fuel z orgOut) as S.
  unfold reader_Read in *.
  destruct (Read_loop fuel z [] orgOut) as [[[z1 d1] o1] z2 | z2 | z2];
    try discriminate.
  inversion H; subst. simpl in S. subst z2. exists d1, o1. auto.
Qed.

(** What the loop keeps: the staging buffer has the length it had, and the
    bytes handed out and the room left make up the caller's buffer. *)
Definition keeps_sizes (z : reader) (done out : list byte) (v : rloop) : Prop :=
  len (inBuf (fst (fst v))) = len (inBuf z) /\
  len (snd (fst v)) + len (snd v) = len done + len out /\
  len done <= len (snd (fst v)).

Lemma Read_round_sizes (z : reader) (done out : list byte) :
  match Read_round z done out with
  | Next v | Break v => keeps_sizes z done out v
  | Fault _ => True
  end.
Proof.
  unfold keeps_sizes.
  round_paths; simpl; try exact I; bool_facts;
    rewrite ?len_store, ?len_app in *;
    repeat match goal with
           | |- context [firstn ?k ?l] =>
               lazymatch goal with
               | _ : len (firstn k l) + len (skipn k l) = len l |- _ => fail
               | _ => pose proof (len_firstn_skipn k l);
                      pose proof (len_nonneg (firstn k l))
               end
           end;
    rewrite ?len_store in *;
    repeat split; try reflexivity; try lia.
Qed.

Lemma Read_loop_sizes (fuel : nat) (z : reader) (done out : list byte)
    (v : rloop) (z' : reader) :
  Read_loop fuel z done out = Done v z' -> keeps_sizes z done out v.
Proof.
  revert z done out. induction fuel as [| fuel IH]; intros z done out; simpl.
  - destruct (Read_guard z out); [discriminate |].
    intros H. inversion H; subst. unfold keeps_sizes. simpl. lia.
  - destruct (Read_guard z out);
      [| intros H; inversion H; subst; unfold keeps_sizes; simpl; lia].
    pose proof (Read_round_sizes z done out) as R.
    destruct (Read_round z done out) as [[[z1 d1] o1] | [[z1 d1] o1] | z1].
    + intros H. apply IH in H. unfold keeps_sizes in *. simpl in *. lia.
    + intros H. inversion H; subst. exact R.
    + discriminate.
Qed.

(** [Read] answers a count between zero and [len(out)]; the caller's buffer
    and the staging buffer keep their lengths. *)
Theorem Read_count_within_buffer :
  forall (fuel : nat) (z : reader) (orgOut : list byte)
         (n : Z) (err : option error) (buf : list byte) (z' : reader),
    reader_Read fuel z orgOut = Done (n, err, buf) z' ->
    0 <= n <= len orgOut /\ len buf = len orgOut /\
    len (inBuf z') = len (inBuf z).
Proof.
  intros fuel z orgOut n err buf z' H.
  destruct (reader_Read_done _ _ _ _ _ _ _ H) as (done & out & L & -> & _ & ->).
  apply Read_loop_sizes in L. unfold keeps_sizes in L. simpl in L.
  rewrite len_app. pose proof (len_nonneg out). change (len []) with 0 in L. lia.
Qed.

(** The error that [Read] answers stays: every later [Read] answers zero
    bytes and the same error, and leaves the reader and the caller's buffer
    as they are. *)
Theorem Read_error_is_final :
  forall (fuel : nat) (z : reader) (orgOut : list byte)
         (n : Z) (e : error) (buf : list byte) (z' : reader),
    reader_Read fuel z orgOut = Done (n, Some e, buf) z' ->
    forall (fuel2 : nat) (out2 : list byte),
      reader_Read fuel2 z' out2 = Done (0, Some e, out2) z'.
Proof.
  intros fuel z orgOut n e buf z' H fuel2 out2.
  destruct (reader_Read_done _ _ _ _ _ _ _ H) as (done & out & _ & _ & He & _).
  apply reader_Read_poisoned. symmetry. exact He.
Qed.

(** A round that leaves the loop with no error has met the end of a
    stream. *)
Lemma Read_round_break_nil (z : reader) (done out : list byte)
    (z1 : reader) (d1 o1 : list byte) :
  Read_round z done out = Break (z1, d1, o1) -> r_err z1 = None ->
  exists l0 f k c,
    r_calls z1 = r_calls z ++ l0 ++ [Inflate f k Z_STREAM_END c; InflateReset Z_OK].
Proof.
  round_paths; intros H; inversion H; subst; clear H; simpl; intros He;
    try discriminate He; bool_facts; subst;
    try (exfalso; revert He; apply zlibReturnCodeToError_nonzero;
         unfold Z_OK in *; assumption).
  all: try (exfalso; simpl in *; congruence).
  all: rewrite <- ?app_assoc; simpl.
  all: first
    [ exists []; do 3 eexists; reflexivity
    | eexists [_]; do 3 eexists; reflexivity ].
Qed.

Lemma Read_loop_short_nil (fuel : nat) (z : reader) (done out : list byte)
    (z1 : reader) (d1 o1 : list byte) (z' : reader) :
  Read_loop fuel z done out = Done (z1, d1, o1) z' -> r_err z1 = None ->
  o1 = [] \/
  exists l0 f k c,
    r_calls z1 = r_calls z ++ l0 ++ [Inflate f k Z_STREAM_END c; InflateReset Z_OK].
Proof.
  revert z done out. induction fuel as [| fuel IH]; intros z done out; simpl.
  - unfold Read_guard. destruct (r_err z) eqn:E.
    + intros H. inversion H; subst. congruence.
    + destruct (len out >? 0) eqn:G; [discriminate |].
      intros H _. inversion H; subst. left. apply len_nil_inv.
      pose proof (len_nonneg o1). pose proof (Zgt_cases (len o1) 0) as C.
      rewrite G in C. lia.
  - unfold Read_guard. destruct (r_err z) eqn:E.
    + intros H. inversion H; subst. congruence.
    + destruct (len out >? 0) eqn:G.
      * destruct (Read_round_ok z done out) as (l1 & s1 & Hl1 & _).
        destruct (Read_round z done out) as [[[z2 d2] o2] | [[z2 d2] o2] | z2] eqn:R.
        -- intros H He. destruct (IH _ _ _ H He) as [-> | (l0 & f & k & c & Hc)];
             [left; reflexivity | right].
           simpl in Hl1. exists (l1 ++ l0), f, k, c.
           rewrite Hc, Hl1, <- !app_assoc. reflexivity.
        -- intros H He. inversion H; subst. right.
           eapply Read_round_break_nil; eassumption.
        -- discriminate.
      * intros H _. inversion H; subst. left. apply len_nil_inv.
        pose proof (len_nonneg o1). pose proof (Zgt_cases (len o1) 0) as C.
        rewrite G in C. lia.
Qed.

(** When [Read] answers nil it has filled the caller's buffer, unless the
    engine has met the end of a stream: then the last calls of the [Read]
    are that engine step and the reset that answered [Z_OK]. *)
Theorem Read_short_with_nil_only_at_stream_end :
  forall (fuel : nat) (z : reader) (orgOut : list byte)
         (n : Z) (buf : list byte) (z' : reader),
    reader_Read fuel z orgOut = Done (n, None, buf) z' ->
    n = len orgOut \/
    exists l0 f k c,
      r_calls z' =
        r_calls z ++ l0 ++ [Inflate f k Z_STREAM_END c; InflateReset Z_OK].
Proof.
  intros fuel z orgOut n buf z' H.
  destruct (reader_Read_done _ _ _ _ _ _ _ H) as (done & out & L & -> & He & _).
  destruct (Read_loop_short_nil _ _ _ _ _ _ _ _ L (eq_sym He)) as [-> | E].
  - left. change (len []) with 0. lia.
  - right. exact E.
Qed.

(** At the end of the input [Read] answers [io.EOF], whatever the engine
    holds: when the source answers no bytes and [io.EOF], and when the end
    of the input has been seen before and the engine has used up what it was
    given.  The engine is not asked. *)
Theorem Read_at_end_of_input_answers_EOF :
  forall (fuel : nat) (z : reader) (out : list byte),
    r_err z = None -> 0 < len out -> inConsumed z = true ->
    (inEOF z = true ->
     reader_Read (S fuel) z out = Done (0, Some EOF, out) (r_set_err (Some EOF) z)) /\
    (forall s' : src,
        inEOF z = false ->
        src_read (r_in z) (len (inBuf z)) = (s', [], Some EOF) ->
        reader_Read (S fuel) z out =
          Done (0, Some EOF, out)
               (r_set_err (Some EOF)
                  (r_set_inEOF true
                     (r_log (SrcRead 0 (Some EOF)) (r_pulled s' [] z))))).
Proof.
  intros fuel z out Herr Hout Hc.
  assert (G : Read_guard z out = true).
  { unfold Read_guard. rewrite Herr. apply Z.gtb_lt. lia. }
  split.
  - intros He. unfold reader_Read. simpl. rewrite G.
    unfold Read_round. rewrite Hc, He. simpl. rewrite Z.sub_diag. reflexivity.
  - intros s' He Hs. unfold reader_Read. simpl. rewrite G.
    unfold Read_round. rewrite Hc, He, Hs. simpl.
    rewrite Z.sub_diag. reflexivity.
Qed.

(** [Close] after a [Read]: it answers the error that [Read] answered,
    and nil in place of [io.EOF]; it ends the engine, and so does every
    further [Close]. *)
Theorem Close_answers_the_error_of_Read :
  forall (fuel : nat) (z : reader) (orgOut : list byte)
         (n : Z) (err : option error) (buf : list byte) (z' : reader),
    reader_Read fuel z orgOut = Done (n, err, buf) z' ->
    let (e1, z1) := reader_Close z' in
    let (e2, z2) := reader_Close z1 in
    e1 = match err with Some EOF => None | _ => err end /\
    e2 = e1 /\
    r_calls z2 = r_calls z' ++ [InflateEnd; InflateEnd] /\
    r_zs z2 = zs_inflate_end (zs_inflate_end (r_zs z')).
Proof.
  intros fuel z orgOut n err buf z' H.
  destruct (reader_Read_done _ _ _ _ _ _ _ H) as (done & out & _ & _ & -> & _).
  unfold reader_Close. simpl.
  destruct (r_err z') as [[] |] eqn:E; simpl; rewrite ?E; simpl;
    rewrite <- ?app_assoc; repeat split; reflexivity.
Qed.

(** A reader made with a staging buffer of no bytes never steps the
    engine: a [Read] into a buffer with room panics, or answers zero bytes
    and the error of the source, after the one pull it has made. *)
Theorem Read_with_empty_staging_buffer :
  forall (input : src) (z : reader) (fuel : nat) (out : list byte),
    NewReaderBuffer input 0 = Some (Some z, None) ->
    0 < len out ->
    exists k e,
      r_calls (state_of (reader_Read (S fuel) z out)) =
        r_calls z ++ [SrcRead k e] /\
      match reader_Read (S fuel) z out with
      | Done (n, err, buf) z' => n = 0 /\ err <> None /\ err = e /\ buf = out
      | Panic _ => True
      | Timeout _ => False
      end.
Proof.
  intros input z fuel out Hnew Hout.
  unfold NewReaderBuffer in Hnew. simpl in Hnew.
  destruct zs_inflate_init as [ec zs].
  destruct (negb (ec =? 0)); [discriminate |].
  inversion Hnew; subst z; clear Hnew.
  unfold reader_Read. simpl. unfold Read_guard. simpl.
  replace (len out >? 0) with true by (symmetry; apply Z.gtb_lt; lia).
  unfold Read_round. simpl.
  destruct (src_read input (len (make 0))) as [[s' data] err].
  exists (len data), err.
  destruct err as [e |]; simpl.
  - destruct (is_EOF e) eqn:Ee; simpl.
    + unfold Read_staged. simpl.
      destruct (len data =? 0); simpl.
      * rewrite Z.sub_diag. destruct e; try discriminate Ee.
        repeat split. discriminate.
      * split; [reflexivity | exact I].
    + rewrite Z.sub_diag. repeat split. discriminate.
  - unfold Read_staged. simpl.
    destruct (len data =? 0); simpl; split; try reflexivity; exact I.
Qed.

End ReaderAnswers.

(** ** What the Writer answers and keeps *)

Section WriterAnswers.
Context {DE : DeflateEngine} {SK : Sink}.

(** [Write] answers the whole length of the slice and nil, or zero and an
    error: no count in between, also when the engine or the sink has taken
    a part of the input before the failure. *)
Theorem Write_answers_all_or_nothing :
  forall (fuel : nat) (z : writer) (input : list byte)
         (n : Z) (err : option error) (z' : writer),
    writer_Write fuel z input = Done (n, err) z' ->
    (err = None /\ n = len input) \/ (err <> None /\ n = 0).
Proof.
  intros fuel z input n err z' H.
  destruct (writer_Write_all_or_error fuel z input n err z' H) as [[Hn He] | [Hn He]];
    [left | right]; split; assumption.
Qed.

(** No operation of the Writer assigns its [err] field or replaces its
    staging buffer: after any sequence of [Write], [Flush], [Close] and
    [Reset], whatever they answered, the field holds what it held and the
    buffer has the length it had. *)
Theorem Writer_never_records_an_error :
  forall (fuel : nat) (ops : list wop) (z : writer),
    w_err (run_ops fuel ops z) = w_err z /\
    len (outBuf (run_ops fuel ops z)) = len (outBuf z).
Proof.
  intros fuel ops z.
  destruct (run_ops_log fuel ops z) as (l & _ & _ & Hlen & Herr).
  split; assumption.
Qed.

(** [NewWriterLevel] accepts a staging buffer of no bytes; the writer it
    answers then panics in every [Close], [Flush] and [Write] of a slice
    that is not empty, before any call to the engine, whatever was done with
    it before. *)
Theorem Writer_with_empty_staging_buffer_panics :
  forall (w : snk) (level : Z) (z0 : writer) (fuel : nat) (ops : list wop),
    NewWriterLevel w level 0 = Some (Some z0, None) ->
    let z := run_ops fuel ops z0 in
    (forall fuel', writer_Close (S fuel') z = Panic z) /\
    writer_Flush z = Panic z /\
    (forall fuel' input, input <> [] -> writer_Write fuel' z input = Panic z).
Proof.
  intros w level z0 fuel ops Hnew z.
  assert (Hz : len (outBuf z) = 0).
  { destruct (run_ops_log fuel ops z0) as (l & _ & _ & Hlen & _).
    unfold z. rewrite Hlen.
    unfold NewWriterLevel in Hnew. simpl in Hnew.
    destruct (zs_deflate_init (C_int level)) as [ec zs].
    destruct (negb (ec =? 0)); [discriminate |].
    inversion Hnew; subst. reflexivity. }
  split; [| split].
  - intros fuel'. simpl. rewrite Hz. reflexivity.
  - unfold writer_Flush. rewrite Hz. reflexivity.
  - intros fuel' input Hne. unfold writer_Write.
    destruct (len input =? 0) eqn:E.
    + apply Z.eqb_eq, len_nil_inv in E. contradiction.
    + rewrite Hz. reflexivity.
Qed.

End WriterAnswers.

(** ** Runs that show the properties at work *)

Section RunsOfTheProperties.

Local Existing Instance Ref.Deflater.
Local Existing Instance Ref.Inflater.
Local Existing Instance Ref.BufferSink.
Local Existing Instance Ref.BytesSource.

Lemma Write_answers_all_or_nothing_witness :
  (Some (ErrIO 1) = None /\ 0 = len abcd) \/ (Some (ErrIO 1) <> None /\ 0 = 0).
Proof.
  apply (Write_answers_all_or_nothing 5 (ex_writer [Some (ErrIO 1)] 8) abcd
           0 (Some (ErrIO 1)) (state_of refused_write)).
  vm_compute. reflexivity.
Defined.

Lemma Writer_with_empty_staging_buffer_panics_witness :
  let z := run_ops 5 [OpReset empty_sink] (ex_writer [] 0) in
  (forall fuel', writer_Close (S fuel') z = Panic z) /\
  writer_Flush z = Panic z /\
  (forall fuel' input, input <> [] -> writer_Write fuel' z input = Panic z).
Proof.
  apply (Writer_with_empty_staging_buffer_panics
           empty_sink (-1) (ex_writer [] 0) 5 [OpReset empty_sink]).
  reflexivity.
Defined.

Lemma Read_count_within_buffer_witness :
  0 <= 1 <= len (make 4) /\
  len [x61; x00; x00; x00] = len (make 4) /\
  len (inBuf (state_of first_read)) = len (inBuf (ex_reader two_members 8)).
Proof.
  apply (Read_count_within_buffer 5 (ex_reader two_members 8) (make 4)
           1 None [x61; x00; x00; x00] (state_of first_read)).
  vm_compute. reflexivity.
Defined.

Lemma Read_short_with_nil_only_at_stream_end_witness :
  1 = len (make 4) \/
  exists l0 f k c,
    r_calls (state_of first_read) =
      r_calls (ex_reader two_members 8) ++
      l0 ++ [Inflate f k Z_STREAM_END c; InflateReset Z_OK].
Proof.
  apply (Read_short_with_nil_only_at_stream_end 5 (ex_reader two_members 8)
           (make 4) 1 [x61; x00; x00; x00] (state_of first_read)).
  vm_compute. reflexivity.
Defined.

(** A byte that is no tag of the stored format: the engine answers
    [Z_DATA_ERROR]. *)
Definition bad_read : outcome reader (Z * option error * list byte) :=
  reader_Read 5 (ex_reader [x07] 8) (make 4).

Lemma Read_error_is_final_witness :
  bad_read = Done (0, Some ErrData, make 4) (state_of bad_read) /\
  forall (fuel2 : nat) (out2 : list byte),
    reader_Read fuel2 (state_of bad_read) out2 =
      Done (0, Some ErrData, out2) (state_of bad_read).
Proof.
  split; [vm_compute; reflexivity |].
  apply (Read_error_is_final 5 (ex_reader [x07] 8) (make 4)
           0 ErrData (make 4) (state_of bad_read)).
  vm_compute. reflexivity.
Defined.

Lemma Close_answers_the_error_of_Read_witness :
  let (e1, z1) := reader_Close (state_of bad_read) in
  let (e2, z2) := reader_Close z1 in
  e1 = Some ErrData /\
  e2 = e1 /\
  r_calls z2 = r_calls (state_of bad_read) ++ [InflateEnd; InflateEnd] /\
  r_zs z2 = zs_inflate_end (zs_inflate_end (r_zs (state_of bad_read))).
Proof.
  apply (Close_answers_the_error_of_Read 5 (ex_reader [x07] 8) (make 4)
           0 (Some ErrData) (make 4) (state_of bad_read)).
  vm_compute. reflexivity.
Defined.

(** A stream cut off after its first literal, read into a buffer of one
    byte: the reader has handed out the byte and holds no error. *)
Definition cut_off : reader :=
  state_of (reader_Read 5 (ex_reader [x01; x61] 8) (make 1)).

Lemma Read_at_end_of_input_answers_EOF_witness :
  (inEOF cut_off = true ->
   reader_Read 1 cut_off (make 4) =
     Done (0, Some EOF, make 4) (r_set_err (Some EOF) cut_off)) /\
  (forall s' : src,
      inEOF cut_off = false ->
      src_read (r_in cut_off) (len (inBuf cut_off)) = (s', [], Some EOF) ->
      reader_Read 1 cut_off (make 4) =
        Done (0, Some EOF, make 4)
             (r_set_err (Some EOF)
                (r_set_inEOF true
                   (r_log (SrcRead 0 (Some EOF)) (r_pulled s' [] cut_off))))).
Proof.
  apply (Read_at_end_of_input_answers_EOF 0 cut_off (make 4)).
  - reflexivity.
  - reflexivity.
  - reflexivity.
Defined.

Lemma Read_with_empty_staging_buffer_witness :
  exists k e,
    r_calls (state_of (reader_Read 1 (ex_reader two_members 0) (make 1))) =
      r_calls (ex_reader two_members 0) ++ [SrcRead k e] /\
    match reader_Read 1 (ex_reader two_members 0) (make 1) with
    | Done (n, err, buf) z' => n = 0 /\ err <> None /\ err = e /\ buf = make 1
    | Panic _ => True
    | Timeout _ => False
    end.
Proof.
  apply (@Read_with_empty_staging_buffer Ref.Inflater Ref.BytesSource
           two_members (ex_reader two_members 0) 0 (make 1)).
  - reflexivity.
  - reflexivity.
Defined.

End RunsOfTheProperties.

(** * The round trip over any engine that keeps the calling conventions

    What the Go code relies on from the C side is written as two contracts
    over a format [stream c B] ("[c] is a whole compressed stream of [B]").
    They say what zlib's manual says of [deflate] and [inflate]: a call
    answers [Z_OK] when it is given something to do, it stays inside the
    output room it is given, a call that leaves no room has more to hand out,
    the engine finishes after finitely many calls, the end of a stream is
    reported with its last byte, and a reset makes the engine ready for the
    next stream. *)

Section Contracts.
Context {DE : DeflateEngine} {IE : InflateEngine}.
Variable stream : list byte -> list byte -> Prop.

(** Where a compression is: taking input ([full] says that the last call
    left no room in the output), being finished, or at its end. *)
Inductive phase : Type :=
| Open (full : bool)
| Finishing
| Finished.

(** [dinv p zs a g]: the engine state [zs] has been told the bytes [a] and
    has handed out the bytes [g].  [dwork] bounds the calls still needed to
    hand out what the engine holds. *)
Record DeflateContract : Type := {
  dinv : phase -> dzs -> list byte -> list byte -> Prop;
  dwork : dzs -> nat;
  d_init : forall level zs,
      zs_deflate_init level = (0, zs) -> dinv (Open false) zs [] [];
  d_input : forall full zs a g input cap ret zs' w outLen,
      dinv (Open full) zs a g -> input <> [] -> 0 < cap ->
      zs_deflate zs (Some input) (len input) cap = (ret, zs', w, outLen) ->
      ret = 0 /\ 0 <= outLen /\ len w = cap - outLen /\
      dinv (Open (outLen =? 0)) zs' (a ++ input) (g ++ w);
  d_drain : forall zs a g cap ret zs' w outLen,
      dinv (Open true) zs a g -> 0 < cap ->
      zs_deflate zs None 0 cap = (ret, zs', w, outLen) ->
      ret = 0 /\ 0 <= outLen /\ len w = cap - outLen /\
      dinv (Open (outLen =? 0)) zs' a (g ++ w) /\
      (outLen = 0 -> (dwork zs' < dwork zs)%nat);
  d_flush : forall full zs a g cap ret zs' w outLen,
      dinv (Open full) zs a g -> 0 < cap ->
      zs_deflate_flush zs cap = (ret, zs', w, outLen) ->
      (ret = Z_BUF_ERROR /\ dinv (Open full) zs' a g) \/
      (ret = 0 /\ 0 <= outLen /\ len w = cap - outLen /\
       dinv (Open (outLen =? 0)) zs' a (g ++ w));
  d_finish : forall p zs a g cap ret zs' w outLen,
      p <> Finished -> dinv p zs a g -> 0 < cap ->
      zs_deflate_finish zs cap = (ret, zs', w, outLen) ->
      0 <= outLen /\ len w = cap - outLen /\
      ((ret = Z_STREAM_END /\ stream (g ++ w) a /\
        dinv Finished zs' a (g ++ w)) \/
       (ret = 0 /\ dinv Finishing zs' a (g ++ w) /\
        (p = Finishing -> (dwork zs' < dwork zs)%nat)));
  d_reset : forall p zs a g ret zs',
      dinv p zs a g -> zs_deflate_reset zs = (ret, zs') ->
      ret = Z_OK /\ dinv (Open false) zs' [] []
}.

(** [streams c Bs]: [c] is made of whole streams, one after the other, of
    the byte sequences [Bs]. *)
Inductive streams : list byte -> list (list byte) -> Prop :=
| streams_nil : streams [] []
| streams_cons c B c' Bs :
    stream c B -> streams c' Bs -> streams (c ++ c') (B :: Bs).

(** What a step of the decompression must answer, for the input [rest] not
    yet handed over, the bytes [todo] of this stream not yet produced and the
    streams [next] that follow: [w] is the next part of [todo]; then either
    the stream goes on, and the engine has not used up the last byte of it,
    or this was its end and the engine can be reset: for the next stream, or
    with all input used when there is none. *)
Definition istep
    (iinv : bool -> izs -> list byte -> list byte -> list (list byte) -> Prop)
    (iwork : izs -> nat)
    (rest todo : list byte) (next : list (list byte)) (cap : Z)
    (r : Z * izs * list byte * Z * Z) : Prop :=
  let '(ret, zs', w, outLen, inC) := r in
  0 <= outLen /\ len w = cap - outLen /\
  exists todo',
    todo = w ++ todo' /\
    ((ret = Z_OK /\ iinv (negb (inC =? 0)) zs' rest todo' next /\
      (inC <> 0 -> rest <> [])) \/
     (ret = Z_STREAM_END /\ todo' = [] /\
      fst (zs_inflate_reset zs') = Z_OK /\
      (iwork (snd (zs_inflate_reset zs')) <= iwork zs')%nat /\
      match next with
      | [] => rest = [] /\ inC <> 0
      | B :: next' =>
          iinv (negb (inC =? 0)) (snd (zs_inflate_reset zs')) rest B next' /\
          (inC <> 0 -> rest <> [])
      end)).

(** [iinv consumed zs rest todo next]: the engine state [zs], once it is
    handed [rest], will have produced [todo], reached the end of the stream,
    and have the streams of [next] before it; [consumed] says that it holds
    no input of its own.  [iwork] bounds the steps the engine can make on
    the input it holds. *)
Record InflateContract : Type := {
  iinv : bool -> izs -> list byte -> list byte -> list (list byte) -> Prop;
  iwork : izs -> nat;
  i_nonempty : forall B, ~ stream [] B;
  i_init : forall zs c B next,
      zs_inflate_init = (0, zs) -> streams c (B :: next) ->
      iinv true zs c B next;
  i_fresh : forall zs chunk rest todo next buf cap r,
      iinv true zs (chunk ++ rest) todo next -> chunk <> [] ->
      firstn (length chunk) buf = chunk -> 0 < cap ->
      zs_inflate zs (Some buf) (len chunk) cap = r ->
      istep iinv iwork rest todo next cap r /\
      (iwork (snd (fst (fst (fst r)))) <= length chunk)%nat;
  i_more : forall zs rest todo next cap r,
      iinv false zs rest todo next -> 0 < cap ->
      zs_inflate zs None 0 cap = r ->
      istep iinv iwork rest todo next cap r /\
      (iwork (snd (fst (fst (fst r))))
       < iwork zs + length (snd (fst (fst r))))%nat
}.

End Contracts.

(** ** Callers of the Writer *)

Section WriterCallers.
Context {DE : DeflateEngine} {SK : Sink}.

(** One operation, with the error it answers. *)
Definition do_op (fuel : nat) (z : writer) (op : wop)
  : outcome writer (option error) :=
  match op with
  | OpWrite data =>
      match writer_Write fuel z data with
      | Done (_, err) z' => Done err z'
      | Panic z' => Panic z'
      | Timeout z' => Timeout z'
      end
  | OpFlush => writer_Flush z
  | OpClose => writer_Close fuel z
  | OpReset k => let (err, z') := writer_Reset z k in Done err z'
  end.

(** A caller that goes through [ops] and stops at the first error. *)
Fixpoint do_ops (fuel : nat) (z : writer) (ops : list wop)
  : outcome writer (option error) :=
  match ops with
  | [] => Done None z
  | op :: ops' =>
      match do_op fuel z op with
      | Done None z' => do_ops fuel z' ops'
      | o => o
      end
  end.

(** A caller that writes one stream after the other to the same sink: the
    operations of a stream, [Close], and [Reset] with the sink before the
    next. *)
Fixpoint write_members (fuel : nat) (z : writer) (ms : list (list wop))
  : outcome writer (option error) :=
  match ms with
  | [] => Done None z
  | m :: ms' =>
      match do_ops fuel z (m ++ [OpClose]) with
      | Done None z' =>
          match ms' with
          | [] => Done None z'
          | _ :: _ =>
              match writer_Reset z' (w_out z') with
              | (None, z'') => write_members fuel z'' ms'
              | (Some e, z'') => Done (Some e) z''
              end
          end
      | o => o
      end
  end.

(** The operations of one stream: [Write] of slices whose length fits a C
    [int], and [Flush]. *)
Definition plain_op (op : wop) : Prop :=
  match op with
  | OpWrite data => len data < 2 ^ 31
  | OpFlush => True
  | _ => False
  end.

(** The bytes that the operations write. *)
Fixpoint written (ops : list wop) : list byte :=
  match ops with
  | [] => []
  | OpWrite data :: ops' => data ++ written ops'
  | _ :: ops' => written ops'
  end.

Lemma do_ops_app (fuel : nat) (ops1 ops2 : list wop) (z z1 : writer) :
  do_ops fuel z ops1 = Done None z1 ->
  do_ops fuel z (ops1 ++ ops2) = do_ops fuel z1 ops2.
Proof.
  revert z. induction ops1 as [| op ops1 IH]; intros z; simpl.
  - intros H. inversion H; subst. reflexivity.
  - destruct (do_op fuel z op) as [[e |] z2 | z2 | z2]; try discriminate.
    apply IH.
Qed.

Lemma written_app (ops1 ops2 : list wop) :
  written (ops1 ++ ops2) = written ops1 ++ written ops2.
Proof.
  induction ops1 as [| [data | | | k] ops1 IH]; simpl; try exact IH.
  - reflexivity.
  - rewrite IH. apply app_assoc.
Qed.

End WriterCallers.

(** ** The compressing half *)

Section CompressingHalf.
Context {DE : DeflateEngine}.
Variable stream : list byte -> list byte -> Prop.
Variable DC : DeflateContract stream.

Local Existing Instance Ref.BufferSink.

(** A writer over a sink in memory that held [pre] when the stream began
    and has received [g] since, in phase [p] after input [a], with a staging
    buffer of [size] bytes. *)
Definition writing (size : Z) (p : phase) (a : list byte) (z : writer)
    (pre g : list byte) : Prop :=
  dinv stream DC p (w_zs z) a g /\ w_out z = ([], pre ++ g) /\
  len (outBuf z) = size.

(** The engine's bytes go from the staging buffer to the sink. *)
Lemma push_engine_output (z : writer) (zs' : dzs) (w : list byte) (outLen : Z)
    (c : call) (g : list byte) :
  w_out z = ([], g) -> 0 <= outLen -> len w = len (outBuf z) - outLen ->
  exists z',
    push_outBuf (w_log c (w_engine zs' w z)) outLen = Done None z' /\
    w_out z' = ([], g ++ w) /\ w_zs z' = zs' /\
    len (outBuf z') = len (outBuf z).
Proof.
  intros Hout Hlen Hw. unfold push_outBuf. simpl outBuf.
  rewrite len_store.
  assert (Hn : len (outBuf z) - outLen = len w) by lia.
  rewrite Hn.
  replace ((len w <? 0) || (len (outBuf z) <? len w)) with false.
  2:{ symmetry. apply orb_false_iff. split; apply Z.ltb_ge.
      - apply len_nonneg.
      - lia. }
  assert (Hf : firstn (Z.to_nat (len w)) (store w (outBuf z)) = w).
  { unfold len. rewrite Nat2Z.id. apply firstn_store.
    unfold len in *. lia. }
  rewrite Hf. unfold push. simpl snk_write. simpl w_out. rewrite Hout.
  unfold Ref.buffer_write. simpl.
  rewrite Z.ltb_irrefl.
  eexists. split; [reflexivity |]. simpl. rewrite len_store.
  repeat split; reflexivity.
Qed.

(** The same, for a writer in the middle of a stream. *)
Lemma push_step (size : Z) (p : phase) (a : list byte) (z : writer)
    (pre g : list byte) (zs' : dzs) (w : list byte) (outLen : Z) (c : call) :
  writing size p a z pre g -> 0 <= outLen -> len w = size - outLen ->
  exists z',
    push_outBuf (w_log c (w_engine zs' w z)) outLen = Done None z' /\
    w_out z' = ([], pre ++ g ++ w) /\ w_zs z' = zs' /\
    len (outBuf z') = size.
Proof.
  intros (_ & Hout & Hbuf) Hlen Hw. rewrite <- Hbuf in Hw.
  destruct (push_engine_output z zs' w outLen c _ Hout Hlen Hw)
    as (z' & H1 & H2 & H3 & H4).
  exists z'. rewrite <- app_assoc in H2. repeat split; try assumption.
  congruence.
Qed.

Lemma C_int_len (size : Z) : 0 < size < 2 ^ 31 -> C_int size = size.
Proof. intros H. apply C_int_small. lia. Qed.

Lemma not_zero (x : Z) : 0 < x -> (x =? 0) = false.
Proof. intros H. apply Z.eqb_neq. lia. Qed.

Lemma gtb_false_zero (x : Z) : 0 <= x -> (x >? 0) = false -> x = 0.
Proof. intros H E. destruct (Z.gtb_spec x 0); [discriminate | lia]. Qed.

(** The drain loop of [Write] comes to its end. *)
Lemma Write_loop_drains (size : Z) (k : nat) :
  0 < size < 2 ^ 31 ->
  forall z a pre g,
    writing size (Open true) a z pre g ->
    (dwork stream DC (w_zs z) <= k)%nat ->
    exists z' g',
      (forall n, (k < n)%nat -> Write_loop n z = Done None z') /\
      writing size (Open false) a z' pre g'.
Proof.
  intros Hsize. induction k as [| k IH]; intros z a pre g W Hk.
  all: pose proof W as (Hinv & Hout & Hbuf).
  all: destruct (zs_deflate (w_zs z) None 0 size) as [[[ret zs'] w] outLen] eqn:E.
  all: destruct (d_drain stream DC _ _ _ _ _ _ _ _ Hinv (proj1 Hsize) E)
    as (-> & Hlen & Hw & Hinv' & Hwork).
  all: destruct (push_step size _ a z pre g zs' w outLen (Deflate false 0 0) W Hlen Hw)
    as (z1 & Hpush & Hout1 & Hzs1 & Hbuf1).
  all: assert (Step : forall n, Write_loop (S n) z =
                 if outLen >? 0 then Done None z1 else Write_loop n z1).
  1,3: intros n; simpl; rewrite Hbuf, (not_zero size) by lia;
    rewrite (C_int_len size Hsize), E; simpl negb; cbv iota;
    rewrite Hpush; reflexivity.
  all: destruct (outLen >? 0) eqn:Eo.
  1,3: exists z1, (g ++ w); split;
    [intros [| n] Hn; [lia | apply Step]
    | apply Z.gtb_lt in Eo; rewrite (not_zero outLen) in Hinv' by lia;
      repeat split; try assumption; congruence].
  all: apply gtb_false_zero in Eo; [| exact Hlen].
  all: subst outLen; specialize (Hwork eq_refl); simpl in Hinv'.
  - lia.
  - destruct (IH z1 a pre (g ++ w)) as (z2 & g2 & Hloop & W2).
    + repeat split; try assumption; congruence.
    + rewrite Hzs1. lia.
    + exists z2, g2. split; [| exact W2].
      intros [| n] Hn; [lia |]. rewrite Step. apply Hloop. lia.
Qed.

(** [Write] takes all of an input whose length fits a C [int]. *)
Lemma writer_Write_takes_all (size : Z) (full : bool) (z : writer)
    (a pre g input : list byte) :
  0 < size < 2 ^ 31 -> len input < 2 ^ 31 ->
  writing size (Open full) a z pre g ->
  exists N z' full' g',
    (forall fuel, (N <= fuel)%nat ->
                  writer_Write fuel z input = Done (len input, None) z') /\
    writing size (Open full') (a ++ input) z' pre g'.
Proof.
  intros Hsize Hin W. pose proof W as (Hinv & Hout & Hbuf).
  destruct input as [| b input'] eqn:Ei.
  { exists 0%nat, z, full, g. split; [reflexivity |].
    rewrite app_nil_r. exact W. }
  rewrite <- Ei in *. assert (Hne : input <> []) by (subst; discriminate).
  clear Ei b input'.
  assert (Hpos : 0 < len input).
  { destruct input; [contradiction |].
    rewrite len_cons. pose proof (len_nonneg input). lia. }
  unfold writer_Write.
  rewrite (not_zero (len input)), Hbuf, (not_zero size) by lia.
  rewrite (C_int_len size Hsize), (C_int_len (len input)) by lia.
  destruct (zs_deflate (w_zs z) (Some input) (len input) size)
    as [[[ret zs'] w] outLen] eqn:E.
  destruct (d_input stream DC _ _ _ _ _ _ _ _ _ _ Hinv Hne (proj1 Hsize) E)
    as (-> & Hlen & Hw & Hinv').
  simpl negb. cbv iota.
  destruct (push_step size _ a z pre g zs' w outLen (Deflate true (len input) 0)
              W Hlen Hw) as (z1 & -> & Hout1 & Hzs1 & Hbuf1).
  destruct (outLen >? 0) eqn:Eo.
  - exists 0%nat, z1, false, (g ++ w). split; [reflexivity |].
    apply Z.gtb_lt in Eo. rewrite (not_zero outLen) in Hinv' by lia.
    repeat split; try assumption; congruence.
  - apply gtb_false_zero in Eo; [| exact Hlen].
    subst outLen. simpl in Hinv'.
    assert (W1 : writing size (Open true) (a ++ input) z1 pre (g ++ w)).
    { repeat split; try assumption; congruence. }
    destruct (Write_loop_drains size (dwork stream DC zs') Hsize z1 _ _ _ W1)
      as (z2 & g2 & Hloop & W2); [rewrite Hzs1; lia |].
    exists (S (dwork stream DC zs')), z2, false, g2. split; [| exact W2].
    intros fuel Hfuel. rewrite Hloop by lia. reflexivity.
Qed.

(** [Flush] answers nil and leaves the writer in the middle of the
    stream. *)
Lemma writer_Flush_contract (size : Z) (full : bool) (z : writer)
    (a pre g : list byte) :
  0 < size < 2 ^ 31 ->
  writing size (Open full) a z pre g ->
  exists z' full' g',
    writer_Flush z = Done None z' /\
    writing size (Open full') a z' pre g'.
Proof.
  intros Hsize W. pose proof W as (Hinv & Hout & Hbuf).
  unfold writer_Flush.
  rewrite Hbuf, (not_zero size), (C_int_len size Hsize) by lia.
  destruct (zs_deflate_flush (w_zs z) size) as [[[ret zs'] w] outLen] eqn:E.
  destruct (d_flush stream DC _ _ _ _ _ _ _ _ _ Hinv (proj1 Hsize) E)
    as [(-> & Hinv') | (-> & Hlen & Hw & Hinv')].
  - simpl. eexists _, full, g. split; [reflexivity |].
    split; [exact Hinv' |]. split; [exact Hout |].
    simpl. rewrite len_store. exact Hbuf.
  - simpl.
    destruct (push_step size _ a z pre g zs' w outLen (DeflateFlush 0) W Hlen Hw)
      as (z1 & -> & Hout1 & Hzs1 & Hbuf1).
    exists z1, (outLen =? 0), (g ++ w). split; [reflexivity |].
    repeat split; try assumption; congruence.
Qed.

(** The loop of [Close] comes to its end with a whole stream at the sink. *)
Lemma writer_Close_finishing (size : Z) (k : nat) :
  0 < size < 2 ^ 31 ->
  forall z a pre g,
    writing size Finishing a z pre g ->
    (dwork stream DC (w_zs z) <= k)%nat ->
    exists z' c,
      (forall n, (k < n)%nat -> writer_Close n z = Done None z') /\
      writing size Finished a z' pre c /\ stream c a.
Proof.
  intros Hsize. induction k as [| k IH]; intros z a pre g W Hk.
  all: pose proof W as (Hinv & Hout & Hbuf).
  all: destruct (zs_deflate_finish (w_zs z) size) as [[[ret zs'] w] outLen] eqn:E.
  all: destruct (d_finish stream DC Finishing _ _ _ _ _ _ _ _
                   ltac:(discriminate) Hinv (proj1 Hsize) E)
    as (Hlen & Hw & Hcase).
  all: destruct (push_step size _ a z pre g zs' w outLen (DeflateFinish ret) W Hlen Hw)
    as (z1 & Hpush & Hout1 & Hzs1 & Hbuf1).
  all: assert (Step : forall n, writer_Close (S n) z =
                 if negb (ret =? 0) && negb (ret =? Z_STREAM_END)
                 then Done (zlibReturnCodeToError (zs_deflate_errno zs') ret)
                           (w_log (DeflateFinish ret) (w_engine zs' w z))
                 else if ret =? Z_STREAM_END then Done None z1
                      else writer_Close n z1).
  1,3: intros n; simpl; rewrite Hbuf, (not_zero size) by lia;
    rewrite (C_int_len size Hsize), E;
    destruct (negb (ret =? 0) && negb (ret =? Z_STREAM_END)); [reflexivity |];
    rewrite Hpush; reflexivity.
  all: destruct Hcase as [(-> & Hs & Hfin) | (-> & Hinv' & Hwork)].
  1,3: exists z1, (g ++ w); split;
    [intros [| n] Hn; [lia | rewrite Step; reflexivity]
    | split; [| exact Hs]; repeat split; try assumption; congruence].
  all: specialize (Hwork eq_refl).
  - lia.
  - destruct (IH z1 a pre (g ++ w)) as (z2 & c & Hloop & Hc & Hs).
    + repeat split; try assumption; congruence.
    + rewrite Hzs1. lia.
    + exists z2, c. split; [| split; assumption].
      intros [| n] Hn; [lia |]. rewrite Step. simpl. apply Hloop. lia.
Qed.

Lemma writer_Close_ends_stream (size : Z) (full : bool) (z : writer)
    (a pre g : list byte) :
  0 < size < 2 ^ 31 ->
  writing size (Open full) a z pre g ->
  exists N z' c,
    (forall fuel, (N <= fuel)%nat -> writer_Close fuel z = Done None z') /\
    writing size Finished a z' pre c /\ stream c a.
Proof.
  intros Hsize W. pose proof W as (Hinv & Hout & Hbuf).
  destruct (zs_deflate_finish (w_zs z) size) as [[[ret zs'] w] outLen] eqn:E.
  destruct (d_finish stream DC (Open full) _ _ _ _ _ _ _ _
              ltac:(discriminate) Hinv (proj1 Hsize) E)
    as (Hlen & Hw & Hcase).
  destruct (push_step size _ a z pre g zs' w outLen (DeflateFinish ret) W Hlen Hw)
    as (z1 & Hpush & Hout1 & Hzs1 & Hbuf1).
  assert (Step : forall n, writer_Close (S n) z =
            if negb (ret =? 0) && negb (ret =? Z_STREAM_END)
            then Done (zlibReturnCodeToError (zs_deflate_errno zs') ret)
                      (w_log (DeflateFinish ret) (w_engine zs' w z))
            else if ret =? Z_STREAM_END then Done None z1
                 else writer_Close n z1).
  { intros n; simpl; rewrite Hbuf, (not_zero size) by lia.
    rewrite (C_int_len size Hsize), E.
    destruct (negb (ret =? 0) && negb (ret =? Z_STREAM_END)); [reflexivity |].
    rewrite Hpush; reflexivity. }
  destruct Hcase as [(-> & Hs & Hfin) | (-> & Hinv' & _)].
  - exists 1%nat, z1, (g ++ w). split; [| split; [| exact Hs]].
    + intros [| n] Hn; [lia | rewrite Step; reflexivity].
    + repeat split; try assumption; congruence.
  - destruct (writer_Close_finishing size (dwork stream DC zs') Hsize z1 a pre (g ++ w))
      as (z2 & c & Hloop & Hc & Hs).
    + repeat split; try assumption; congruence.
    + rewrite Hzs1. lia.
    + exists (S (S (dwork stream DC zs'))), z2, c. split; [| split; assumption].
      intros [| n] Hn; [lia |]. rewrite Step. simpl. apply Hloop. lia.
Qed.

(** [Reset] with the sink makes the writer ready for the next stream. *)
Lemma writer_Reset_contract (size : Z) (p : phase) (z : writer)
    (a pre g : list byte) :
  writing size p a z pre g ->
  exists z',
    writer_Reset z (w_out z) = (None, z') /\
    writing size (Open false) [] z' (pre ++ g) [].
Proof.
  intros (Hinv & Hout & Hbuf). unfold writer_Reset.
  destruct (zs_deflate_reset (w_zs z)) as [ret zs'] eqn:E.
  destruct (d_reset stream DC _ _ _ _ _ _ Hinv E) as (-> & Hinv').
  simpl. eexists. split; [reflexivity |].
  split; [exact Hinv' |]. simpl. rewrite app_nil_r. split; assumption.
Qed.

(** The operations of one stream, one after the other. *)
Lemma do_ops_plain (size : Z) (ops : list wop) :
  0 < size < 2 ^ 31 -> Forall plain_op ops ->
  forall (full : bool) (z : writer) (a pre g : list byte),
    writing size (Open full) a z pre g ->
    exists N z' full' g',
      (forall fuel, (N <= fuel)%nat -> do_ops fuel z ops = Done None z') /\
      writing size (Open full') (a ++ written ops) z' pre g'.
Proof.
  intros Hsize Hops. induction Hops as [| op ops Hop Hops IH];
    intros full z a pre g W.
  - exists 0%nat, z, full, g. split; [reflexivity |].
    simpl. rewrite app_nil_r. exact W.
  - destruct op as [data | | | k]; simpl in Hop; try contradiction.
    + destruct (writer_Write_takes_all size full z a pre g data Hsize Hop W)
        as (N1 & z1 & full1 & g1 & Hwrite & W1).
      destruct (IH full1 z1 _ pre g1 W1) as (N2 & z2 & full2 & g2 & Hrest & W2).
      exists (Nat.max N1 N2), z2, full2, g2. split.
      * intros fuel Hfuel. simpl. rewrite Hwrite by lia. apply Hrest. lia.
      * simpl. rewrite app_assoc. exact W2.
    + destruct (writer_Flush_contract size full z a pre g Hsize W)
        as (z1 & full1 & g1 & Hflush & W1).
      destruct (IH full1 z1 _ pre g1 W1) as (N2 & z2 & full2 & g2 & Hrest & W2).
      exists N2, z2, full2, g2. split.
      * intros fuel Hfuel. simpl. rewrite Hflush. apply Hrest. exact Hfuel.
      * exact W2.
Qed.

(** The operations of one stream and [Close]. *)
Lemma do_ops_member (size : Z) (ops : list wop) (full : bool) (z : writer)
    (a pre g : list byte) :
  0 < size < 2 ^ 31 -> Forall plain_op ops ->
  writing size (Open full) a z pre g ->
  exists N z' c,
    (forall fuel, (N <= fuel)%nat ->
                  do_ops fuel z (ops ++ [OpClose]) = Done None z') /\
    writing size Finished (a ++ written ops) z' pre c /\
    stream c (a ++ written ops).
Proof.
  intros Hsize Hops W.
  destruct (do_ops_plain size ops Hsize Hops full z a pre g W)
    as (N1 & z1 & full1 & g1 & Hrun & W1).
  destruct (writer_Close_ends_stream size full1 z1 _ pre g1 Hsize W1)
    as (N2 & z2 & c & Hclose & W2 & Hs).
  exists (Nat.max N1 N2), z2, c. split; [| split; assumption].
  intros fuel Hfuel.
  rewrite (do_ops_app fuel ops [OpClose] z z1) by (apply Hrun; lia).
  simpl. rewrite Hclose by lia. reflexivity.
Qed.

(** Streams written one after the other to the same sink. *)
Lemma write_members_contract (size : Z) (ms : list (list wop)) :
  0 < size < 2 ^ 31 -> Forall (Forall plain_op) ms ->
  forall (z : writer) (pre : list byte),
    writing size (Open false) [] z pre [] ->
    exists N z' c,
      (forall fuel, (N <= fuel)%nat -> write_members fuel z ms = Done None z') /\
      w_out z' = ([], pre ++ c) /\ len (outBuf z') = size /\
      streams stream c (map written ms).
Proof.
  intros Hsize Hms. induction Hms as [| m ms Hm Hms IH]; intros z pre W.
  - exists 0%nat, z, []. split; [reflexivity |].
    destruct W as (_ & Hout & Hbuf). repeat split; try assumption. constructor.
  - destruct (do_ops_member size m false z [] pre [] Hsize Hm W)
      as (N1 & z1 & c1 & Hrun & W1 & Hs). simpl in W1, Hs.
    destruct ms as [| m2 ms'].
    + exists N1, z1, c1. split; [| split; [| split]].
      * intros fuel Hfuel. simpl. rewrite Hrun by exact Hfuel. reflexivity.
      * apply W1.
      * apply W1.
      * simpl. rewrite <- (app_nil_r c1). constructor; [exact Hs | constructor].
    + destruct (writer_Reset_contract size _ z1 _ pre c1 W1) as (z2 & Hreset & W2).
      destruct (IH z2 (pre ++ c1) W2) as (N2 & z3 & c2 & Hrest & Hout3 & Hbuf3 & Hss).
      exists (Nat.max N1 N2), z3, (c1 ++ c2). split; [| split; [| split]].
      * intros fuel Hfuel. change (write_members fuel z (m :: m2 :: ms')) with
          (match do_ops fuel z (m ++ [OpClose]) with
           | Done None z' =>
               match writer_Reset z' (w_out z') with
               | (None, z'') => write_members fuel z'' (m2 :: ms')
               | (Some e, z'') => Done (Some e) z''
               end
           | o => o
           end).
        rewrite Hrun by lia. rewrite Hreset. apply Hrest. lia.
      * rewrite Hout3, app_assoc. reflexivity.
      * exact Hbuf3.
      * change (map written (m :: m2 :: ms'))
          with (written m :: map written (m2 :: ms')).
        constructor; assumption.
Qed.

End CompressingHalf.

(** ** The decompressing half *)

Section DecompressingHalf.
Context {IE : InflateEngine}.
Variable stream : list byte -> list byte -> Prop.
Variable IC : InflateContract stream.

Local Existing Instance Ref.BytesSource.

(** A reader in the middle of a stream: no error, input not at its end,
    [todo] still to be produced from what the engine holds and what the
    source has left, and the streams of [next] after that. *)
Definition reading (size : Z) (z : reader) (todo : list byte)
    (next : list (list byte)) : Prop :=
  r_err z = None /\ inEOF z = false /\
  iinv stream IC (inConsumed z) (r_zs z) (r_in z) todo next /\
  (inConsumed z = true -> r_in z <> []) /\
  len (inBuf z) = size.

(** A reader at the end of the last stream, with nothing left at the
    source. *)
Definition ended (z : reader) : Prop :=
  r_err z = None /\ inEOF z = false /\ inConsumed z = true /\ r_in z = [].

(** A reader between two streams, or after the last. *)
Definition between (size : Z) (z : reader) (next : list (list byte)) : Prop :=
  match next with
  | [] => ended z
  | B :: next' => reading size z B next'
  end.

Fixpoint members_left (next : list (list byte)) : nat :=
  match next with
  | [] => 0
  | B :: next' => S (length B + members_left next')
  end.

(** The work left: bounds the rounds of the loop still to come. *)
Definition left_over (z : reader) (todo : list byte) (next : list (list byte))
  : nat :=
  2 * length (r_in z) + iwork stream IC (r_zs z) + length todo +
  members_left next.

Lemma skipn_store_len (w out : list byte) :
  len w <= len out -> len (skipn (length w) (store w out)) = len out - len w.
Proof.
  intros H. unfold len in *. rewrite length_skipn, store_length. lia.
Qed.

(** The statements after an engine step that kept the contract. *)
Lemma Read_after_contract (size : Z) (z1 : reader) (done out rest todo : list byte)
    (next : list (list byte)) (ret : Z) (w : list byte) (outLen inC : Z) :
  r_err z1 = None -> inEOF z1 = false -> r_in z1 = rest -> len (inBuf z1) = size ->
  istep (iinv stream IC) (iwork stream IC) rest todo next (len out)
        (ret, r_zs z1, w, outLen, inC) ->
  exists todo' v,
    todo = w ++ todo' /\ len w <= len out /\
    snd v = skipn (length w) (store w out) /\
    snd (fst v) = done ++ w /\
    r_in (fst (fst v)) = rest /\
    (iwork stream IC (r_zs (fst (fst v))) <= iwork stream IC (r_zs z1))%nat /\
    ((Read_after z1 done (store w out) ret outLen inC = Next v /\
      reading size (fst (fst v)) todo' next) \/
     (Read_after z1 done (store w out) ret outLen inC = Break v /\
      todo' = [] /\ between size (fst (fst v)) next)).
Proof.
  intros Herr Heof Hin Hbuf (Hlen & Hw & todo' & Htodo & Hcase).
  assert (Hle : len w <= len out) by lia.
  assert (Hn : len (store w out) - outLen = len w) by (rewrite len_store; lia).
  assert (Hf : firstn (Z.to_nat (len w)) (store w out) = w).
  { unfold len. rewrite Nat2Z.id. apply firstn_store. unfold len in *. lia. }
  assert (Hs : skipn (Z.to_nat (len w)) (store w out) = skipn (length w) (store w out)).
  { unfold len. now rewrite Nat2Z.id. }
  exists todo'.
  unfold Read_after. rewrite Hn, Hf, Hs.
  replace ((len w <? 0) || (len (store w out) <? len w)) with false.
  2:{ symmetry. apply orb_false_iff. split; apply Z.ltb_ge.
      - apply len_nonneg.
      - rewrite len_store. exact Hle. }
  destruct Hcase as [(-> & Hinv & Hrest) | (-> & -> & Hreset & Hwork & Hnext)].
  - simpl.
    exists (r_set_inConsumed (negb (inC =? 0)) z1, done ++ w,
            skipn (length w) (store w out)).
    split; [exact Htodo |]. split; [exact Hle |].
    split; [reflexivity |]. split; [reflexivity |]. split; [exact Hin |].
    split; [apply Nat.le_refl |].
    left. split; [reflexivity |].
    unfold reading. simpl. split; [exact Herr |]. split; [exact Heof |].
    split; [rewrite Hin; exact Hinv |]. split; [| exact Hbuf].
    intros Hc. rewrite Hin. apply Hrest.
    apply negb_true_iff, Z.eqb_neq in Hc. exact Hc.
  - simpl.
    destruct (zs_inflate_reset (r_zs z1)) as [ret' zs''] eqn:Er.
    simpl in Hreset, Hwork, Hnext. subst ret'. simpl.
    exists (r_log (InflateReset Z_OK)
              (r_set_zs zs'' (r_set_inConsumed (negb (inC =? 0)) z1)),
            done ++ w, skipn (length w) (store w out)).
    split; [exact Htodo |]. split; [exact Hle |].
    split; [reflexivity |]. split; [reflexivity |]. split; [exact Hin |].
    split; [exact Hwork |].
    right. split; [reflexivity |]. split; [reflexivity |].
    destruct next as [| B next']; simpl.
    + destruct Hnext as [Hr HinC].
      unfold ended. simpl. split; [exact Herr |]. split; [exact Heof |].
      split; [| rewrite Hin; exact Hr].
      apply negb_true_iff, Z.eqb_neq. exact HinC.
    + destruct Hnext as [Hinv Hrest].
      unfold reading. simpl. split; [exact Herr |]. split; [exact Heof |].
      split; [rewrite Hin; exact Hinv |]. split; [| exact Hbuf].
      intros Hc. rewrite Hin. apply Hrest.
      apply negb_true_iff, Z.eqb_neq in Hc. exact Hc.
Qed.

(** One round of the loop of [Read] in the middle of a stream: it yields
    the next bytes of the stream; then the loop goes on with less work left,
    or the stream has ended and the loop is left. *)
Lemma Read_round_contract (size : Z) (z : reader) (done out todo : list byte)
    (next : list (list byte)) :
  0 < size < 2 ^ 31 -> 0 < len out < 2 ^ 31 ->
  reading size z todo next ->
  exists todo' w v,
    todo = w ++ todo' /\ len w <= len out /\
    snd v = skipn (length w) (store w out) /\
    snd (fst v) = done ++ w /\
    (left_over (fst (fst v)) todo' next < left_over z todo next)%nat /\
    ((Read_round z done out = Next v /\ reading size (fst (fst v)) todo' next) \/
     (Read_round z done out = Break v /\ todo' = [] /\
      between size (fst (fst v)) next)).
Proof.
  intros Hsize Hout (Herr & Heof & Hinv & Hrest & Hbuf).
  unfold Read_round. destruct (inConsumed z) eqn:Hc; simpl negb; cbv iota.
  - (* the staged input is used up: pull *)
    rewrite Heof. specialize (Hrest eq_refl).
    set (k := Z.to_nat size).
    set (chunk := firstn k (r_in z)). set (rest := skipn k (r_in z)).
    assert (Hsplit : r_in z = chunk ++ rest) by (symmetry; apply firstn_skipn).
    assert (Hchunk : chunk <> []).
    { unfold chunk. destruct (r_in z) as [| b l]; [contradiction |].
      destruct k eqn:Ek; [unfold k in Ek; lia | discriminate]. }
    assert (Hcl : (length chunk <= k)%nat) by (unfold chunk; apply firstn_le_length).
    assert (Hpull : src_read (r_in z) (len (inBuf z)) = (rest, chunk, None)).
    { simpl src_read. unfold Ref.bytes_read. rewrite Hbuf.
      destruct (r_in z); [contradiction | reflexivity]. }
    rewrite Hpull.
    set (z1 := r_log (SrcRead (len chunk) None)
                     (@r_pulled IE Ref.BytesSource rest chunk z)).
    unfold Read_staged.
    assert (Hn : 0 < len chunk <= size).
    { pose proof (length_zero_iff_nil chunk) as Hz.
      assert (length chunk <> 0)%nat by tauto.
      unfold len. unfold k in Hcl. lia. }
    replace (len chunk =? 0) with false by (symmetry; apply Z.eqb_neq; lia).
    assert (Hb1 : len (inBuf z1) = size) by (simpl; rewrite len_store; exact Hbuf).
    rewrite Hb1.
    replace (size =? 0) with false by (symmetry; apply Z.eqb_neq; lia).
    rewrite (C_int_small (len chunk)), (C_int_small (len out)) by lia.
    destruct (zs_inflate (r_zs z1) (Some (inBuf z1)) (len chunk) (len out))
      as [[[[ret zs'] w] outLen] inC] eqn:E.
    destruct (i_fresh stream IC (r_zs z) chunk rest todo next (inBuf z1) (len out)
                (ret, zs', w, outLen, inC)) as [Hstep Hwork].
    { rewrite <- Hsplit. exact Hinv. }
    { exact Hchunk. }
    { simpl. apply firstn_store. unfold len in Hbuf. unfold k in Hcl. lia. }
    { lia. }
    { exact E. }
    simpl in Hwork.
    set (z2 := r_log (Inflate true (len chunk) ret inC) (r_set_zs zs' z1)).
    destruct (Read_after_contract size z2 done out rest todo next ret w outLen inC)
      as (todo' & v & Htodo & Hle & Hv1 & Hv2 & Hin' & Hzs & Hcase);
      try reflexivity; try assumption.
    exists todo', w, v. repeat split; try assumption.
    unfold left_over. rewrite Hin', Hsplit, Htodo, !length_app.
    simpl r_zs in Hzs. unfold len in Hn. lia.
  - (* input is left in the engine: step it *)
    rewrite (C_int_small (len out)) by lia.
    destruct (zs_inflate (r_zs z) None 0 (len out))
      as [[[[ret zs'] w] outLen] inC] eqn:E.
    destruct (i_more stream IC (r_zs z) (r_in z) todo next (len out) _ Hinv
                (proj1 Hout) E) as [Hstep Hwork].
    simpl in Hwork.
    set (z2 := r_log (Inflate false 0 ret inC) (r_set_zs zs' z)).
    destruct (Read_after_contract size z2 done out (r_in z) todo next ret w outLen inC)
      as (todo' & v & Htodo & Hle & Hv1 & Hv2 & Hin' & Hzs & Hcase);
      try reflexivity; try assumption.
    exists todo', w, v. repeat split; try assumption.
    unfold left_over. rewrite Hin', Htodo, !length_app.
    simpl r_zs in Hzs. lia.
Qed.

(** The loop of [Read] in the middle of a stream: it yields the next bytes
    [w] of the stream and stops with the caller's buffer full or with the
    stream at its end. *)
Lemma Read_loop_contract (size : Z) :
  0 < size < 2 ^ 31 ->
  forall (k : nat) (z : reader) (done out todo : list byte)
         (next : list (list byte)),
    len out < 2 ^ 31 ->
    reading size z todo next ->
    (left_over z todo next <= k)%nat ->
    exists todo' w z' out',
      todo = w ++ todo' /\ len w <= len out /\ len out' = len out - len w /\
      (forall n, (k < n)%nat ->
                 Read_loop n z done out = Done (z', done ++ w, out') z') /\
      (left_over z' todo' next <= left_over z todo next)%nat /\
      (0 < len out -> (left_over z' todo' next < left_over z todo next)%nat) /\
      ((reading size z' todo' next /\ len out' = 0) \/
       (todo' = [] /\ between size z' next)).
Proof.
  intros Hsize k. induction k as [k IH] using lt_wf_ind.
  intros z done out todo next Hout Hrd Hk.
  destruct (Z.eq_dec (len out) 0) as [H0 | H0].
  - (* no room in the caller's buffer *)
    exists todo, [], z, out. rewrite app_nil_r, H0.
    repeat split; try reflexivity; try lia.
    + intros n _. destruct Hrd as (Herr & _).
      destruct n; simpl; unfold Read_guard; rewrite Herr, H0; reflexivity.
    + left. split; [exact Hrd | reflexivity].
  - pose proof (len_nonneg out) as Hnn.
    assert (Hout' : 0 < len out < 2 ^ 31) by lia.
    assert (G : Read_guard z out = true).
    { unfold Read_guard. destruct Hrd as (-> & _). apply Z.gtb_lt. lia. }
    destruct (Read_round_contract size z done out todo next Hsize Hout' Hrd)
      as (todo1 & w1 & [[z1 d1] o1] & Htodo & Hle & Ho1 & Hd1 & Hlt & Hcase).
    simpl in Ho1, Hd1, Hlt. subst d1.
    assert (Hlo1 : len o1 = len out - len w1).
    { subst o1. now apply skipn_store_len. }
    destruct Hcase as [(Hr & Hrd1) | (Hr & Hnil & Hbt)]; simpl in *.
    + (* the loop goes on *)
      assert (Hk1 : (k - 1 < k)%nat) by lia.
      destruct (IH (k - 1)%nat Hk1 z1 (done ++ w1) o1 todo1 next)
        as (todo' & w2 & z' & out' & Htodo2 & Hle2 & Hlo & Hloop & Hmono & _ & Hfin);
        [pose proof (len_nonneg w1); lia | exact Hrd1 | lia |].
      exists todo', (w1 ++ w2), z', out'.
      split; [rewrite Htodo, Htodo2, app_assoc; reflexivity |].
      split; [rewrite len_app; lia |].
      split; [rewrite len_app; lia |].
      split; [| split; [lia | split; [intros _; lia | exact Hfin]]].
      intros [| n] Hn; [lia |]. simpl. rewrite G, Hr.
      rewrite app_assoc. apply Hloop. lia.
    + (* the stream has ended *)
      exists todo1, w1, z1, o1.
      split; [exact Htodo |]. split; [exact Hle |]. split; [exact Hlo1 |].
      split; [| split; [lia | split; [intros _; lia | right; split; assumption]]].
      intros [| n] Hn; [lia |]. simpl. rewrite G, Hr. reflexivity.
Qed.

(** One [Read] in the middle of a stream, into a buffer of [osize] bytes. *)
Lemma reader_Read_contract (size osize : Z) (z : reader) (todo : list byte)
    (next : list (list byte)) :
  0 < size < 2 ^ 31 -> 0 < osize < 2 ^ 31 ->
  reading size z todo next ->
  exists todo' w z' buf,
    todo = w ++ todo' /\
    firstn (Z.to_nat (len w)) buf = w /\
    (forall fuel, (left_over z todo next < fuel)%nat ->
                  reader_Read fuel z (make osize) = Done (len w, None, buf) z') /\
    (left_over z' todo' next < left_over z todo next)%nat /\
    (reading size z' todo' next \/ (todo' = [] /\ between size z' next)).
Proof.
  intros Hsize Hosize Hrd.
  assert (Hm : len (make osize) = osize) by (apply len_make; lia).
  destruct (Read_loop_contract size Hsize (left_over z todo next) z []
              (make osize) todo next)
    as (todo' & w & z' & out' & Htodo & Hle & Hlo & Hloop & _ & Hlt & Hfin);
    [rewrite Hm; lia | exact Hrd | lia |].
  exists todo', w, z', (w ++ out').
  split; [exact Htodo |]. split.
  { unfold len. rewrite Nat2Z.id, firstn_app, Nat.sub_diag, firstn_all. simpl.
    apply app_nil_r. }
  split; [| split].
  - intros fuel Hfuel. unfold reader_Read. rewrite (Hloop fuel Hfuel). simpl.
    assert (Herr : r_err z' = None).
    { destruct Hfin as [((He & _) & _) | (_ & Hbt)]; [exact He |].
      destruct next; apply Hbt. }
    rewrite Herr, Hlo. f_equal. f_equal. f_equal. lia.
  - apply Hlt. rewrite Hm. lia.
  - destruct Hfin as [(Hrd' & _) | Hend]; [left; exact Hrd' | right; exact Hend].
Qed.

(** One [Read] after the end of the last stream: the source is at its end,
    and [Read] answers [(0, io.EOF)]. *)
Lemma reader_Read_ended (osize : Z) (z : reader) (fuel : nat) :
  0 < osize -> ended z ->
  exists z', reader_Read (S fuel) z (make osize) = Done (0, Some EOF, make osize) z'.
Proof.
  intros Hosize (Herr & Heof & Hc & Hin).
  assert (Hm : len (make osize) = osize) by (apply len_make; lia).
  unfold reader_Read. simpl. unfold Read_guard. rewrite Herr, Hm.
  replace (osize >? 0) with true by (symmetry; apply Z.gtb_lt; lia).
  unfold Read_round. rewrite Hc, Heof. simpl negb. cbv iota.
  simpl src_read. rewrite Hin. unfold Ref.bytes_read. simpl.
  unfold Read_staged. simpl.
  rewrite Hm, Z.sub_diag. eexists. reflexivity.
Qed.

Lemma read_all_ended (osize : Z) (z : reader) (calls fuel : nat) :
  0 < osize -> ended z ->
  read_all (S calls) (S fuel) z osize = Some ([], EOF).
Proof.
  intros Hosize Hend.
  destruct (reader_Read_ended osize z fuel Hosize Hend) as (z' & H).
  cbn [read_all]. rewrite H. reflexivity.
Qed.

(** Reading to the end yields what is left of the stream and the streams
    after it, and [io.EOF]. *)
Lemma read_all_contract (size osize : Z) :
  0 < size < 2 ^ 31 -> 0 < osize < 2 ^ 31 ->
  forall (k : nat) (z : reader) (todo : list byte) (next : list (list byte)),
    reading size z todo next ->
    (left_over z todo next <= k)%nat ->
    forall calls fuel,
      (k + 2 <= calls)%nat -> (k + 2 <= fuel)%nat ->
      read_all calls fuel z osize = Some (todo ++ concat next, EOF).
Proof.
  intros Hsize Hosize k. induction k as [k IH] using lt_wf_ind.
  intros z todo next Hrd Hk calls fuel Hcalls Hfuel.
  destruct (reader_Read_contract size osize z todo next Hsize Hosize Hrd)
    as (todo' & w & z' & buf & Htodo & Hgot & Hread & Hlt & Hfin).
  destruct calls as [| calls]; [lia |]. cbn [read_all].
  rewrite Hread by lia. rewrite Hgot.
  destruct Hfin as [Hrd' | (Hnil & Hbt)].
  - rewrite (IH (k - 1)%nat) with (todo := todo') (next := next);
      try assumption; try lia.
    rewrite Htodo, <- app_assoc. reflexivity.
  - subst todo'. rewrite app_nil_r in Htodo. subst w.
    destruct next as [| B next']; simpl in Hbt.
    + destruct calls as [| calls]; [lia |].
      destruct fuel as [| fuel]; [lia |].
      rewrite (read_all_ended osize z' calls fuel (proj1 Hosize) Hbt).
      simpl. rewrite app_nil_r. reflexivity.
    + rewrite (IH (k - 1)%nat) with (todo := B) (next := next');
        try assumption; try lia.
      * reflexivity.
      * unfold left_over in *. simpl in *. lia.
Qed.

(** A reader made over streams that follow one another reads them to the
    end as one sequence of bytes. *)
Lemma read_all_streams (size osize : Z) (c : list byte) (Bs : list (list byte))
    (zs : izs) :
  0 < size < 2 ^ 31 -> 0 < osize < 2 ^ 31 ->
  zs_inflate_init = (0, zs) -> streams stream c Bs ->
  exists (N : nat) (z : reader),
    NewReaderBuffer c size = Some (Some z, None) /\
    forall calls fuel, (N <= calls)%nat -> (N <= fuel)%nat ->
                       read_all calls fuel z osize = Some (concat Bs, EOF).
Proof.
  intros Hsize Hosize Hinit Hss.
  set (z := @mkReader IE Ref.BytesSource c true false zs (make size) None
                      [InflateInit 0]).
  assert (Hnew : NewReaderBuffer c size = Some (Some z, None)).
  { unfold NewReaderBuffer.
    replace (size <? 0) with false by (symmetry; apply Z.ltb_ge; lia).
    rewrite Hinit. reflexivity. }
  destruct Bs as [| B next].
  - inversion Hss; subst.
    exists 1%nat, z. split; [exact Hnew |].
    intros [| calls] [| fuel] Hc Hf; try lia.
    apply read_all_ended; [lia |]. repeat split.
  - assert (R0 : reading size z B next).
    { split; [reflexivity |]. split; [reflexivity |]. split; [| split].
      - simpl. apply i_init; assumption.
      - simpl. intros _ Hc. inversion Hss; subst.
        match goal with H : _ ++ _ = [] |- _ => apply app_eq_nil in H; destruct H end.
        subst. eapply (i_nonempty stream IC). eassumption.
      - simpl. apply len_make. lia. }
    exists (left_over z B next + 2)%nat, z. split; [exact Hnew |].
    intros calls fuel Hcalls Hfuel.
    apply (read_all_contract size osize Hsize Hosize (left_over z B next) z B next R0);
      lia.
Qed.

End DecompressingHalf.

(** ** The reference engine keeps the contracts *)

Section ReferenceFormat.

(** The stored format, read from the left: [parses lit c B next] says that
    [c], read with a literal expected when [lit] holds, is the rest of a
    stream that yields [B], followed by whole streams of [next]. *)
Inductive parses : bool -> list byte -> list byte -> list (list byte) -> Prop :=
| parses_end : parses false [Ref.tag_end] [] []
| parses_next c B next :
    parses false c B next -> parses false (Ref.tag_end :: c) [] (B :: next)
| parses_tag c B next :
    parses true c B next -> parses false (Ref.tag_lit :: c) B next
| parses_lit b c B next :
    parses false c B next -> parses true (b :: c) (b :: B) next
| parses_sync c B next :
    parses false c B next -> parses false (Ref.tag_sync :: c) B next.

(** [c] is a whole stream of [B]. *)
Definition ref_stream (c B : list byte) : Prop := parses false c B [].

(** [c] is the beginning of a stream, made of whole items, of [a]. *)
Definition body (c a : list byte) : Prop :=
  forall tail B next,
    parses false tail B next -> parses false (c ++ tail) (a ++ B) next.

Lemma body_nil : body [] [].
Proof. intros tail B next H. exact H. Qed.

Lemma body_app (c1 a1 c2 a2 : list byte) :
  body c1 a1 -> body c2 a2 -> body (c1 ++ c2) (a1 ++ a2).
Proof.
  intros H1 H2 tail B next H. rewrite <- !app_assoc. apply H1, H2, H.
Qed.

Lemma body_enc (w : list byte) : body (Ref.enc w) w.
Proof.
  induction w as [| b w IH]; intros tail B next H; simpl.
  - exact H.
  - apply parses_tag, parses_lit, IH, H.
Qed.

Lemma body_sync : body [Ref.tag_sync] [].
Proof. intros tail B next H. simpl. apply parses_sync, H. Qed.

Lemma body_end (c a : list byte) :
  body c a -> ref_stream (c ++ [Ref.tag_end]) a.
Proof.
  intros H. unfold ref_stream. rewrite <- (app_nil_r a).
  apply H, parses_end.
Qed.

Lemma parses_nonempty (lit : bool) (B : list byte) (next : list (list byte)) :
  ~ parses lit [] B next.
Proof. intros H. inversion H. Qed.

Lemma parses_app (lit : bool) (c B : list byte) (next1 : list (list byte)) :
  parses lit c B next1 ->
  forall c' B' next2,
    parses false c' B' next2 -> parses lit (c ++ c') B (next1 ++ B' :: next2).
Proof.
  induction 1; intros c' B' next2 H'; simpl.
  - apply parses_next, H'.
  - apply parses_next. now apply IHparses.
  - apply parses_tag. now apply IHparses.
  - apply parses_lit. now apply IHparses.
  - apply parses_sync. now apply IHparses.
Qed.

Lemma streams_parses (next : list (list byte)) :
  forall c B, streams ref_stream c (B :: next) -> parses false c B next.
Proof.
  induction next as [| B2 next IH]; intros c B H; inversion H; subst.
  - match goal with H : streams _ _ [] |- _ => inversion H; subst end.
    rewrite app_nil_r. assumption.
  - apply (parses_app false _ _ [] ltac:(eassumption)). apply IH. assumption.
Qed.

Lemma length_enc (w : list byte) : length (Ref.enc w) = (2 * length w)%nat.
Proof. induction w as [| b w IH]; simpl; [reflexivity | lia]. Qed.

End ReferenceFormat.

Section ReferenceDeflater.

Local Existing Instance Ref.Deflater.

Definition ref_dinv (p : phase) (st : Ref.dstate) (a g : list byte) : Prop :=
  Ref.d_ended st = false /\
  match p with
  | Open full =>
      Ref.d_finished st = false /\
      (full = true -> Ref.d_full st = true) /\
      exists a1, a = a1 ++ Ref.d_win st /\ body (g ++ Ref.d_pending st) a1
  | Finishing =>
      Ref.d_finished st = true /\ ref_stream (g ++ Ref.d_pending st) a
  | Finished => True
  end.

Definition ref_dwork (st : Ref.dstate) : nat :=
  length (Ref.d_pending st) + 2 * length (Ref.d_win st).

(** What [emit] hands out and what it keeps. *)
Lemma emit_spec (win P : list byte) (fin fl : bool) (cap ret : Z) :
  0 < cap ->
  exists st w outLen,
    Ref.emit win P fin fl cap ret = (ret, st, w, outLen) /\
    0 <= outLen /\ len w = cap - outLen /\
    w ++ Ref.d_pending st = P /\
    Ref.d_win st = win /\ Ref.d_finished st = fin /\ Ref.d_ended st = false /\
    Ref.d_full st = (outLen =? 0) /\
    (outLen = 0 -> (length (Ref.d_pending st) < length P)%nat) /\
    ((length P <= Z.to_nat cap)%nat -> w = P) /\
    (~ (length P <= Z.to_nat cap)%nat -> (length (Ref.d_pending st) < length P)%nat).
Proof.
  intros Hcap. unfold Ref.emit.
  set (k := Nat.min (Z.to_nat cap) (length P)).
  assert (Hk : (k <= Z.to_nat cap)%nat /\ (k <= length P)%nat) by (unfold k; lia).
  eexists _, _, _. split; [reflexivity |]. simpl.
  assert (Hw : length (firstn k P) = k) by (rewrite length_firstn; lia).
  split; [lia |]. split; [unfold len; rewrite Hw; lia |].
  split; [apply firstn_skipn |]. split; [reflexivity |]. split; [reflexivity |].
  split; [reflexivity |]. split.
  { destruct (Z.eqb_spec (Z.of_nat k) cap), (Z.eqb_spec (cap - Z.of_nat k) 0);
      try reflexivity; lia. }
  split; [intros H0; rewrite length_skipn; lia |].
  split.
  - intros Hle. replace k with (length P) by (unfold k; lia). apply firstn_all.
  - intros Hgt. rewrite length_skipn. unfold k. lia.
Qed.

Lemma told_all (input : list byte) :
  input <> [] -> Ref.told (Some input) (len input) = input.
Proof.
  intros H. unfold Ref.told.
  assert (0 < len input).
  { destruct input; [contradiction |]. rewrite len_cons.
    pose proof (len_nonneg input). lia. }
  replace (len input >? 0) with true by (symmetry; apply Z.gtb_lt; lia).
  unfold len. rewrite Nat2Z.id. apply firstn_all.
Qed.

Lemma cap_positive (cap : Z) : 0 < cap -> (cap <=? 0) = false.
Proof. intros H. apply Z.leb_gt. exact H. Qed.

(** A call of [deflate] that has something to do. *)
Lemma ref_deflate_step (st : Ref.dstate) (a g data : list byte) (full : bool)
    (input : option (list byte)) (in_bytes cap : Z) :
  ref_dinv (Open full) st a g -> 0 < cap ->
  Ref.told input in_bytes = data ->
  data <> [] \/ Ref.d_full st = true ->
  exists st' w outLen,
    Ref.deflate st input in_bytes cap = (0, st', w, outLen) /\
    0 <= outLen /\ len w = cap - outLen /\
    ref_dinv (Open (outLen =? 0)) st' (a ++ data) (g ++ w) /\
    (data = [] -> outLen = 0 -> (ref_dwork st' < ref_dwork st)%nat).
Proof.
  intros (He & Hf & _ & a1 & Ha & Hb) Hcap Hdata Hdo.
  unfold Ref.deflate. rewrite He, Hf, (cap_positive cap Hcap), Hdata. simpl orb.
  cbv iota.
  set (win := Ref.d_win st ++ data).
  assert (Go : forall X : Z * Ref.dstate * list byte * Z,
             match data, Ref.d_pending st, Ref.d_full st with
             | [], [], false => (Z_BUF_ERROR, st, [], cap)
             | _, _, _ => X
             end = X).
  { intros X. destruct data; [| reflexivity].
    destruct Hdo as [Hd | Hd]; [contradiction |]. rewrite Hd.
    destruct (Ref.d_pending st); reflexivity. }
  rewrite Go.
  destruct (Nat.leb_spec Ref.block (length win)) as [Hblock | Hblock].
  - destruct (emit_spec [] (Ref.d_pending st ++ Ref.enc win) false false cap Z_OK Hcap)
      as (st' & w & outLen & -> & Hlen & Hw & HP & Hwin & Hfin & Hend & Hfull & Hless & _).
    exists st', w, outLen. split; [reflexivity |].
    split; [exact Hlen |]. split; [exact Hw |]. split.
    + split; [exact Hend |]. split; [exact Hfin |]. split.
      * intros H0. rewrite Hfull. exact H0.
      * exists (a ++ data). rewrite Hwin, app_nil_r. split; [reflexivity |].
        replace ((g ++ w) ++ Ref.d_pending st')
          with ((g ++ Ref.d_pending st) ++ Ref.enc win)
          by (rewrite <- !app_assoc, HP; reflexivity).
        replace (a ++ data) with (a1 ++ win)
          by (unfold win; rewrite Ha, <- app_assoc; reflexivity).
        apply body_app; [exact Hb | apply body_enc].
    + intros -> H0. specialize (Hless H0). unfold ref_dwork.
      rewrite Hwin. rewrite length_app, length_enc in Hless.
      unfold win in Hless. rewrite app_nil_r in Hless. simpl. lia.
  - destruct (emit_spec win (Ref.d_pending st) false false cap Z_OK Hcap)
      as (st' & w & outLen & -> & Hlen & Hw & HP & Hwin & Hfin & Hend & Hfull & Hless & _).
    exists st', w, outLen. split; [reflexivity |].
    split; [exact Hlen |]. split; [exact Hw |]. split.
    + split; [exact Hend |]. split; [exact Hfin |]. split.
      * intros H0. rewrite Hfull. exact H0.
      * exists a1. rewrite Hwin. unfold win. split.
        -- rewrite Ha, app_assoc. reflexivity.
        -- rewrite <- app_assoc, HP. exact Hb.
    + intros -> H0. specialize (Hless H0). unfold ref_dwork.
      rewrite Hwin. unfold win. rewrite app_nil_r. lia.
Qed.


Lemma ref_d_init (level : Z) (zs : Ref.dstate) :
  Ref.deflate_init level = (0, zs) -> ref_dinv (Open false) zs [] [].
Proof.
  unfold Ref.deflate_init.
  destruct ((level <? -1) || (9 <? level)); intros H; inversion H; subst.
  repeat split; try reflexivity; try discriminate.
  exists []. split; [reflexivity | apply body_nil].
Qed.

Lemma ref_d_input (full : bool) (zs : Ref.dstate) (a g input : list byte)
    (cap ret : Z) (zs' : Ref.dstate) (w : list byte) (outLen : Z) :
  ref_dinv (Open full) zs a g -> input <> [] -> 0 < cap ->
  Ref.deflate zs (Some input) (len input) cap = (ret, zs', w, outLen) ->
  ret = 0 /\ 0 <= outLen /\ len w = cap - outLen /\
  ref_dinv (Open (outLen =? 0)) zs' (a ++ input) (g ++ w).
Proof.
  intros Hinv Hne Hcap E.
  destruct (ref_deflate_step zs a g input full (Some input) (len input) cap
              Hinv Hcap (told_all input Hne) (or_introl Hne))
    as (st' & w' & outLen' & E' & H1 & H2 & H3 & _).
  rewrite E' in E. inversion E; subst. auto.
Qed.

Lemma ref_d_drain (zs : Ref.dstate) (a g : list byte)
    (cap ret : Z) (zs' : Ref.dstate) (w : list byte) (outLen : Z) :
  ref_dinv (Open true) zs a g -> 0 < cap ->
  Ref.deflate zs None 0 cap = (ret, zs', w, outLen) ->
  ret = 0 /\ 0 <= outLen /\ len w = cap - outLen /\
  ref_dinv (Open (outLen =? 0)) zs' a (g ++ w) /\
  (outLen = 0 -> (ref_dwork zs' < ref_dwork zs)%nat).
Proof.
  intros Hinv Hcap E.
  assert (Hfull : Ref.d_full zs = true) by (apply Hinv; reflexivity).
  destruct (ref_deflate_step zs a g [] true None 0 cap
              Hinv Hcap eq_refl (or_intror Hfull))
    as (st' & w' & outLen' & E' & H1 & H2 & H3 & H4).
  rewrite E' in E. inversion E; subst. rewrite app_nil_r in H3.
  split; [reflexivity |]. split; [exact H1 |]. split; [exact H2 |].
  split; [exact H3 |]. intros H0. apply H4; [reflexivity | exact H0].
Qed.

Lemma ref_d_flush (full : bool) (zs : Ref.dstate) (a g : list byte)
    (cap ret : Z) (zs' : Ref.dstate) (w : list byte) (outLen : Z) :
  ref_dinv (Open full) zs a g -> 0 < cap ->
  Ref.deflate_flush zs cap = (ret, zs', w, outLen) ->
  (ret = Z_BUF_ERROR /\ ref_dinv (Open full) zs' a g) \/
  (ret = 0 /\ 0 <= outLen /\ len w = cap - outLen /\
   ref_dinv (Open (outLen =? 0)) zs' a (g ++ w)).
Proof.
  intros Hinv Hcap. pose proof Hinv as (He & Hf & _ & a1 & Ha & Hb).
  unfold Ref.deflate_flush. rewrite He, Hf, (cap_positive cap Hcap). simpl orb.
  cbv iota.
  assert (Emit : forall P,
             body (g ++ P) a ->
             Ref.emit [] P false true cap Z_OK = (ret, zs', w, outLen) ->
             ret = 0 /\ 0 <= outLen /\ len w = cap - outLen /\
             ref_dinv (Open (outLen =? 0)) zs' a (g ++ w)).
  { intros P HbP E.
    destruct (emit_spec [] P false true cap Z_OK Hcap)
      as (st' & w' & outLen' & E' & Hlen & Hw & HP & Hwin & Hfin & Hend & Hfull & _).
    rewrite E' in E. inversion E; subst.
    split; [reflexivity |]. split; [exact Hlen |]. split; [exact Hw |].
    split; [exact Hend |]. split; [exact Hfin |]. split.
    - intros H0. rewrite Hfull. exact H0.
    - exists (a1 ++ Ref.d_win zs). rewrite Hwin, app_nil_r. split; [reflexivity |].
      rewrite <- app_assoc. exact HbP. }
  assert (B1 : body (g ++ Ref.d_pending zs ++ Ref.enc (Ref.d_win zs)) a).
  { rewrite app_assoc, Ha. apply body_app; [exact Hb | apply body_enc]. }
  assert (B2 : body (g ++ Ref.d_pending zs ++ Ref.enc (Ref.d_win zs) ++ [Ref.tag_sync]) a).
  { rewrite <- (app_nil_r a).
    replace (g ++ Ref.d_pending zs ++ Ref.enc (Ref.d_win zs) ++ [Ref.tag_sync])
      with ((g ++ Ref.d_pending zs ++ Ref.enc (Ref.d_win zs)) ++ [Ref.tag_sync])
      by (rewrite <- !app_assoc; reflexivity).
    apply body_app; [exact B1 | apply body_sync]. }
  destruct (Ref.d_flushed zs) eqn:Efl.
  - destruct (Ref.d_win zs) eqn:Ew; [destruct (Ref.d_pending zs) eqn:Ep |].
    + intros E. inversion E; subst. left. split; [reflexivity | exact Hinv].
    + intros E. right. apply (Emit _ B1 E).
    + intros E. right. apply (Emit _ B1 E).
  - intros E. right. apply (Emit _ B2).
    destruct (Ref.d_win zs); [destruct (Ref.d_pending zs) |]; exact E.
Qed.

Lemma ref_d_finish (p : phase) (zs : Ref.dstate) (a g : list byte)
    (cap ret : Z) (zs' : Ref.dstate) (w : list byte) (outLen : Z) :
  p <> Finished -> ref_dinv p zs a g -> 0 < cap ->
  Ref.deflate_finish zs cap = (ret, zs', w, outLen) ->
  0 <= outLen /\ len w = cap - outLen /\
  ((ret = Z_STREAM_END /\ ref_stream (g ++ w) a /\
    ref_dinv Finished zs' a (g ++ w)) \/
   (ret = 0 /\ ref_dinv Finishing zs' a (g ++ w) /\
    (p = Finishing -> (ref_dwork zs' < ref_dwork zs)%nat))).
Proof.
  intros Hp (He & Hinv) Hcap. unfold Ref.deflate_finish.
  rewrite He, (cap_positive cap Hcap).
  set (P := if Ref.d_finished zs then Ref.d_pending zs
            else Ref.d_pending zs ++ Ref.enc (Ref.d_win zs) ++ [Ref.tag_end]).
  assert (HP : ref_stream (g ++ P) a /\
               (p = Finishing -> P = Ref.d_pending zs)).
  { destruct p as [full | |]; [| | contradiction].
    - destruct Hinv as (Hf & _ & a1 & Ha & Hb). unfold P. rewrite Hf. split.
      + replace (g ++ Ref.d_pending zs ++ Ref.enc (Ref.d_win zs) ++ [Ref.tag_end])
          with (((g ++ Ref.d_pending zs) ++ Ref.enc (Ref.d_win zs)) ++ [Ref.tag_end])
          by (rewrite <- !app_assoc; reflexivity).
        apply body_end. rewrite Ha. apply body_app; [exact Hb | apply body_enc].
      + discriminate.
    - destruct Hinv as (Hf & Hs). unfold P. rewrite Hf. split; [exact Hs | reflexivity]. }
  destruct HP as [Hs HPf].
  set (r := if (length P <=? Z.to_nat cap)%nat then Z_STREAM_END else Z_OK).
  destruct (emit_spec [] P true false cap r Hcap)
    as (st' & w' & outLen' & E' & Hlen & Hw & HPw & Hwin & Hfin & Hend & Hfull
        & _ & Hall & Hpart).
  intros E. rewrite E' in E. inversion E; subst ret zs' w outLen. clear E.
  split; [exact Hlen |]. split; [exact Hw |].
  unfold r. destruct (Nat.leb_spec (length P) (Z.to_nat cap)) as [Hle | Hgt].
  - left. split; [reflexivity |]. rewrite (Hall Hle).
    split; [exact Hs |]. split; [exact Hend | exact I].
  - right. split; [reflexivity |]. split.
    + split; [exact Hend |]. split; [exact Hfin |].
      rewrite <- app_assoc, HPw. exact Hs.
    + intros Hfing. unfold ref_dwork. rewrite Hwin.
      assert (length (Ref.d_pending st') < length P)%nat by (apply Hpart; lia).
      rewrite (HPf Hfing) in *. simpl. lia.
Qed.

Lemma ref_d_reset (p : phase) (zs : Ref.dstate) (a g : list byte)
    (ret : Z) (zs' : Ref.dstate) :
  ref_dinv p zs a g -> Ref.deflate_reset zs = (ret, zs') ->
  ret = Z_OK /\ ref_dinv (Open false) zs' [] [].
Proof.
  intros (He & _). unfold Ref.deflate_reset. rewrite He.
  intros H. inversion H; subst. split; [reflexivity |].
  repeat split; try reflexivity; try discriminate.
  exists []. split; [reflexivity | apply body_nil].
Qed.

(** The reference compressor keeps the contract. *)
Definition ref_deflate_contract : @DeflateContract Ref.Deflater ref_stream :=
  {| dinv := ref_dinv;
     dwork := ref_dwork;
     d_init := ref_d_init;
     d_input := ref_d_input;
     d_drain := ref_d_drain;
     d_flush := ref_d_flush;
     d_finish := ref_d_finish;
     d_reset := ref_d_reset |}.

End ReferenceDeflater.

Section ReferenceInflater.

Local Existing Instance Ref.Inflater.

Definition ref_iinv (consumed : bool) (st : Ref.istate)
    (rest todo : list byte) (next : list (list byte)) : Prop :=
  Ref.i_ended st = false /\
  (consumed = true <-> Ref.i_held st = []) /\
  parses (Ref.i_lit st) (Ref.i_held st ++ rest) todo next.

Definition ref_iwork (st : Ref.istate) : nat := length (Ref.i_held st).

(** What [decode] answers on input that belongs to a stream: the bytes it
    yields are the next of the stream, it uses up input whenever there is
    input and room, and it reports the end with the marker. *)
Lemma decode_spec (held : list byte) :
  forall (lit : bool) (room : nat) (rest todo : list byte)
         (next : list (list byte)),
    parses lit (held ++ rest) todo next ->
    exists ret held' lit' out todo',
      Ref.decode held lit room = (ret, held', lit', out) /\
      todo = out ++ todo' /\ (length out <= room)%nat /\
      (length held' <= length held)%nat /\
      (held <> [] -> room <> 0%nat -> (length held' < length held)%nat) /\
      ((ret = Z_OK /\ parses lit' (held' ++ rest) todo' next) \/
       (ret = Z_STREAM_END /\ todo' = [] /\ lit' = false /\
        (length held' < length held)%nat /\
        match next with
        | [] => held' = [] /\ rest = []
        | B :: next' => parses false (held' ++ rest) B next'
        end)).
Proof.
  induction held as [| b held IH]; intros lit room rest todo next H.
  - exists Z_OK, [], lit, [], todo. simpl.
    repeat split; try reflexivity; try lia; try contradiction.
    left. split; [reflexivity | exact H].
  - simpl in H. inversion H; subst; simpl.
    + (* the end marker, and nothing after it *)
      match goal with E : [] = held ++ rest |- _ =>
        symmetry in E; apply app_eq_nil in E; destruct E; subst end.
      exists Z_STREAM_END, [], false, [], []. simpl.
      repeat split; try reflexivity; try lia. right. repeat split. lia.
    + (* the end marker, and another stream after it *)
      exists Z_STREAM_END, held, false, [], []. simpl.
      repeat split; try reflexivity; try lia. right.
      repeat split; try lia. assumption.
    + (* the tag of a literal *)
      destruct (IH true room rest todo next ltac:(assumption))
        as (ret & held' & lit' & out & todo' & -> & Ht & Hr & Hl & _ & Hcase).
      exists ret, held', lit', out, todo'.
      split; [reflexivity |]. split; [exact Ht |]. split; [exact Hr |].
      split; [lia |]. split; [intros _ _; lia |].
      destruct Hcase as [Hok | (He & Hn & Hlit & Hlt & Hnext)]; [left; exact Hok |].
      right. repeat split; try assumption. lia.
    + (* the byte of a literal *)
      destruct room as [| room].
      * exists Z_OK, (b :: held), true, [], (b :: B). simpl.
        repeat split; try reflexivity; try lia; try contradiction.
        left. split; [reflexivity | exact H].
      * destruct (IH false room rest B next ltac:(assumption))
          as (ret & held' & lit' & out & todo' & -> & Ht & Hr & Hl & _ & Hcase).
        exists ret, held', lit', (b :: out), todo'.
        split; [reflexivity |]. split; [simpl; rewrite Ht; reflexivity |].
        split; [simpl; lia |]. split; [lia |]. split; [intros _ _; lia |].
        destruct Hcase as [Hok | (He & Hn & Hlit & Hlt & Hnext)]; [left; exact Hok |].
        right. repeat split; try assumption. lia.
    + (* the marker of a flush *)
      destruct (IH false room rest todo next ltac:(assumption))
        as (ret & held' & lit' & out & todo' & -> & Ht & Hr & Hl & _ & Hcase).
      exists ret, held', lit', out, todo'.
      split; [reflexivity |]. split; [exact Ht |]. split; [exact Hr |].
      split; [lia |]. split; [intros _ _; lia |].
      destruct Hcase as [Hok | (He & Hn & Hlit & Hlt & Hnext)]; [left; exact Hok |].
      right. repeat split; try assumption. lia.
Qed.

(** A step of [inflate] on the input [held] of a stream. *)
Lemma ref_inflate_step (st : Ref.istate) (held rest todo : list byte)
    (next : list (list byte)) (input : option (list byte)) (in_bytes cap : Z) :
  Ref.i_ended st = false -> held <> [] -> 0 < cap ->
  parses (Ref.i_lit st) (held ++ rest) todo next ->
  match input with
  | Some buf => if in_bytes >? 0 then firstn (Z.to_nat in_bytes) buf
                else Ref.i_held st
  | None => Ref.i_held st
  end = held ->
  istep ref_iinv ref_iwork rest todo next cap
        (Ref.inflate st input in_bytes cap) /\
  (ref_iwork (snd (fst (fst (fst (Ref.inflate st input in_bytes cap)))))
   < length held)%nat.
Proof.
  intros He Hne Hcap Hp Hheld. unfold Ref.inflate. rewrite He, Hheld.
  destruct (decode_spec held (Ref.i_lit st) (Z.to_nat cap) rest todo next Hp)
    as (ret & held' & lit' & out & todo' & -> & Ht & Hr & Hl & Hprog & Hcase).
  assert (Hlt : (length held' < length held)%nat) by (apply Hprog; [exact Hne | lia]).
  replace ((ret =? Z_OK) && (length held' =? length held)%nat
           && (length out =? 0)%nat) with false.
  2:{ symmetry. apply andb_false_iff. left. apply andb_false_iff. right.
      apply Nat.eqb_neq. lia. }
  split; [| simpl; exact Hlt].
  unfold istep. split; [unfold len; lia |]. split; [lia |].
  exists todo'. split; [exact Ht |].
  assert (Hc : forall x : Z,
             x = (if (length held' =? 0)%nat then 1 else 0) ->
             (negb (x =? 0) = true <-> held' = []) /\ (x <> 0 -> held' = [])).
  { intros x ->. destruct held'; simpl; split; try split; intros; try reflexivity;
      try discriminate; try contradiction. }
  destruct (Hc _ eq_refl) as [Hc1 Hc2].
  destruct Hcase as [(-> & Hp') | (-> & -> & -> & _ & Hnext)].
  - left. split; [reflexivity |]. split.
    + split; [reflexivity |]. split; [exact Hc1 | exact Hp'].
    + intros HinC Hrest. rewrite (Hc2 HinC), Hrest in Hp'.
      exact (parses_nonempty _ _ _ Hp').
  - right. split; [reflexivity |]. split; [reflexivity |].
    split; [reflexivity |]. split; [apply Nat.le_refl |].
    destruct next as [| B next'].
    + destruct Hnext as [-> ->]. split; [reflexivity | simpl; discriminate].
    + split.
      * split; [reflexivity |]. split; [exact Hc1 | exact Hnext].
      * intros HinC Hrest. rewrite (Hc2 HinC), Hrest in Hnext.
        exact (parses_nonempty _ _ _ Hnext).
Qed.

Lemma ref_i_nonempty (B : list byte) : ~ ref_stream [] B.
Proof. apply parses_nonempty. Qed.

Lemma ref_i_init (zs : Ref.istate) (c B : list byte) (next : list (list byte)) :
  (Z_OK, Ref.i_init) = (0, zs) -> streams ref_stream c (B :: next) ->
  ref_iinv true zs c B next.
Proof.
  intros H Hs. inversion H; subst.
  split; [reflexivity |]. split; [split; reflexivity |].
  simpl. now apply streams_parses.
Qed.

Lemma ref_i_fresh (zs : Ref.istate) (chunk rest todo : list byte)
    (next : list (list byte)) (buf : list byte) (cap : Z)
    (r : Z * Ref.istate * list byte * Z * Z) :
  ref_iinv true zs (chunk ++ rest) todo next -> chunk <> [] ->
  firstn (length chunk) buf = chunk -> 0 < cap ->
  Ref.inflate zs (Some buf) (len chunk) cap = r ->
  istep ref_iinv ref_iwork rest todo next cap r /\
  (ref_iwork (snd (fst (fst (fst r)))) <= length chunk)%nat.
Proof.
  intros (He & Hc & Hp) Hne Hbuf Hcap <-.
  rewrite (proj1 Hc eq_refl) in Hp. simpl in Hp.
  destruct (ref_inflate_step zs chunk rest todo next (Some buf) (len chunk) cap
              He Hne Hcap Hp) as [H1 H2].
  - assert (0 < len chunk).
    { destruct chunk; [contradiction |]. rewrite len_cons.
      pose proof (len_nonneg chunk). lia. }
    replace (len chunk >? 0) with true by (symmetry; apply Z.gtb_lt; lia).
    unfold len. rewrite Nat2Z.id. exact Hbuf.
  - split; [exact H1 | lia].
Qed.

Lemma ref_i_more (zs : Ref.istate) (rest todo : list byte)
    (next : list (list byte)) (cap : Z)
    (r : Z * Ref.istate * list byte * Z * Z) :
  ref_iinv false zs rest todo next -> 0 < cap ->
  Ref.inflate zs None 0 cap = r ->
  istep ref_iinv ref_iwork rest todo next cap r /\
  (ref_iwork (snd (fst (fst (fst r))))
   < ref_iwork zs + length (snd (fst (fst r))))%nat.
Proof.
  intros (He & Hc & Hp) Hcap <-.
  assert (Hne : Ref.i_held zs <> []).
  { intros E. apply Hc in E. discriminate. }
  destruct (ref_inflate_step zs (Ref.i_held zs) rest todo next None 0 cap
              He Hne Hcap Hp eq_refl) as [H1 H2].
  split; [exact H1 |]. unfold ref_iwork at 2. lia.
Qed.

(** The reference decompressor keeps the contract. *)
Definition ref_inflate_contract : @InflateContract Ref.Inflater ref_stream :=
  {| iinv := ref_iinv;
     iwork := ref_iwork;
     i_nonempty := ref_i_nonempty;
     i_init := ref_i_init;
     i_fresh := ref_i_fresh;
     i_more := ref_i_more |}.

End ReferenceInflater.

(** ** Whole streams, written and read *)

Section WholeStreams.
Context {DE : DeflateEngine} {IE : InflateEngine}.
Variable stream : list byte -> list byte -> Prop.
Variable DC : DeflateContract stream.
Variable IC : InflateContract stream.

Local Existing Instance Ref.BufferSink.
Local Existing Instance Ref.BytesSource.

(** The writer that [NewWriterLevel] makes is at the beginning of a
    stream. *)
Lemma NewWriterLevel_writing (level size : Z) (zs : dzs) :
  0 < size < 2 ^ 31 ->
  zs_deflate_init (C_int level) = (0, zs) ->
  exists z,
    NewWriterLevel empty_sink level size = Some (Some z, None) /\
    writing stream DC size (Open false) [] z [] [].
Proof.
  intros Hsize Hinit.
  exists (w_log SetFinalizer
            (mkWriter empty_sink zs (make size) None [DeflateInit (C_int level) 0])).
  split.
  - unfold NewWriterLevel.
    replace (size <? 0) with false by (symmetry; apply Z.ltb_ge; lia).
    rewrite Hinit. reflexivity.
  - split; [| split].
    + simpl. eapply d_init. exact Hinit.
    + reflexivity.
    + simpl. apply len_make. lia.
Qed.

(** Over a compressor that keeps the contract, with a staging buffer that
    is not empty and lengths that fit a C [int]: every [Write] and [Flush]
    of a sequence answers nil, the [Close] after them comes to its end and
    answers nil, and the sink in memory then holds one whole stream of the
    bytes written, in their order. *)
Theorem Writes_and_Flushes_then_Close_leave_a_whole_stream :
  forall (level size : Z) (ops : list wop) (zs : dzs),
    0 < size < 2 ^ 31 -> Forall plain_op ops ->
    zs_deflate_init (C_int level) = (0, zs) ->
    exists (N : nat) (z z' : writer) (c : list byte),
      NewWriterLevel empty_sink level size = Some (Some z, None) /\
      (forall fuel, (N <= fuel)%nat ->
                    do_ops fuel z (ops ++ [OpClose]) = Done None z') /\
      w_out z' = ([], c) /\ stream c (written ops).
Proof.
  intros level size ops zs Hsize Hops Hinit.
  destruct (NewWriterLevel_writing level size zs Hsize Hinit) as (z & Hnew & W).
  destruct (do_ops_member stream DC size ops false z [] [] [] Hsize Hops W)
    as (N & z' & c & Hrun & W' & Hs).
  exists N, z, z', c. split; [exact Hnew |]. split; [exact Hrun |].
  split; [apply W' | exact Hs].
Qed.

(** The same for streams written one after the other, with [Reset] to the
    same sink after each [Close]: the sink holds the streams in a row. *)
Theorem Reset_after_Close_begins_the_next_stream :
  forall (level size : Z) (ms : list (list wop)) (zs : dzs),
    0 < size < 2 ^ 31 -> Forall (Forall plain_op) ms ->
    zs_deflate_init (C_int level) = (0, zs) ->
    exists (N : nat) (z z' : writer) (c : list byte),
      NewWriterLevel empty_sink level size = Some (Some z, None) /\
      (forall fuel, (N <= fuel)%nat -> write_members fuel z ms = Done None z') /\
      w_out z' = ([], c) /\ streams stream c (map written ms).
Proof.
  intros level size ms zs Hsize Hms Hinit.
  destruct (NewWriterLevel_writing level size zs Hsize Hinit) as (z & Hnew & W).
  destruct (write_members_contract stream DC size ms Hsize Hms z [] W)
    as (N & z' & c & Hrun & Hout & _ & Hs).
  exists N, z, z', c. split; [exact Hnew |]. split; [exact Hrun |].
  split; assumption.
Qed.

(** Over a decompressor that keeps the contract: a reader made over whole
    streams that follow one another in a source in memory yields, [Read]
    after [Read] until [io.EOF], the bytes of all of them in their order;
    every [Read] before the last comes to its end and answers nil. *)
Theorem Read_to_the_end_yields_every_stream :
  forall (size osize : Z) (c : list byte) (Bs : list (list byte)) (zs : izs),
    0 < size < 2 ^ 31 -> 0 < osize < 2 ^ 31 ->
    zs_inflate_init = (0, zs) -> streams stream c Bs ->
    exists (N : nat) (z : reader),
      NewReaderBuffer c size = Some (Some z, None) /\
      forall calls fuel, (N <= calls)%nat -> (N <= fuel)%nat ->
                         read_all calls fuel z osize = Some (concat Bs, EOF).
Proof.
  intros size osize c Bs zs. apply (read_all_streams stream IC).
Qed.

(** The round trip: what the Writer leaves at the sink for a sequence of
    streams reads back, through the Reader, as the bytes that were
    written. *)
Theorem round_trip_within_C_int :
  forall (level wsize rsize osize : Z) (ms : list (list wop))
         (zs_w : dzs) (zs_r : izs),
    0 < wsize < 2 ^ 31 -> 0 < rsize < 2 ^ 31 -> 0 < osize < 2 ^ 31 ->
    Forall (Forall plain_op) ms ->
    zs_deflate_init (C_int level) = (0, zs_w) ->
    zs_inflate_init = (0, zs_r) ->
    exists (N : nat) (zw zw' : writer) (c : list byte) (zr : reader),
      NewWriterLevel empty_sink level wsize = Some (Some zw, None) /\
      (forall fuel, (N <= fuel)%nat -> write_members fuel zw ms = Done None zw') /\
      w_out zw' = ([], c) /\
      NewReaderBuffer c rsize = Some (Some zr, None) /\
      (forall calls fuel, (N <= calls)%nat -> (N <= fuel)%nat ->
                          read_all calls fuel zr osize =
                            Some (concat (map written ms), EOF)).
Proof.
  intros level wsize rsize osize ms zs_w zs_r Hw Hr Ho Hms Hdi Hii.
  destruct (NewWriterLevel_writing level wsize zs_w Hw Hdi) as (zw & Hnew & W).
  destruct (write_members_contract stream DC wsize ms Hw Hms zw [] W)
    as (N1 & zw' & c & Hrun & Hout & _ & Hs).
  destruct (read_all_streams stream IC rsize osize c _ zs_r Hr Ho Hii Hs)
    as (N2 & zr & Hnewr & Hread).
  exists (Nat.max N1 N2), zw, zw', c, zr.
  split; [exact Hnew |]. split; [intros fuel Hfuel; apply Hrun; lia |].
  split; [exact Hout |]. split; [exact Hnewr |].
  intros calls fuel Hcalls Hfuel. apply Hread; lia.
Qed.

End WholeStreams.

(** ** The contracts at work on the reference engine *)

Section WholeStreamsOnTheReferenceEngine.

Local Existing Instance Ref.Deflater.
Local Existing Instance Ref.Inflater.
Local Existing Instance Ref.BufferSink.
Local Existing Instance Ref.BytesSource.

(** "hello", a flush, " world", through a staging buffer of 3 bytes. *)
Definition hello_flush_world : list wop :=
  [OpWrite (firstn 5 hello_world); OpFlush; OpWrite (skipn 5 hello_world)].

Lemma plain_hello_flush_world : Forall plain_op hello_flush_world.
Proof. repeat constructor. Qed.

Lemma Writes_and_Flushes_then_Close_leave_a_whole_stream_witness :
  exists (N : nat) (z z' : writer) (c : list byte),
    NewWriterLevel empty_sink (-1) 3 = Some (Some z, None) /\
    (forall fuel, (N <= fuel)%nat ->
                  do_ops fuel z (hello_flush_world ++ [OpClose]) = Done None z') /\
    w_out z' = ([], c) /\ ref_stream c (written hello_flush_world).
Proof.
  apply (Writes_and_Flushes_then_Close_leave_a_whole_stream
           ref_stream ref_deflate_contract (-1) 3 hello_flush_world Ref.d_init).
  - lia.
  - exact plain_hello_flush_world.
  - reflexivity.
Defined.

(** Two streams and an empty one between them. *)
Definition three_members : list (list wop) :=
  [hello_flush_world; []; [OpWrite abcd; OpWrite efgh]].

Lemma plain_three_members : Forall (Forall plain_op) three_members.
Proof. repeat constructor. Qed.

Lemma Reset_after_Close_begins_the_next_stream_witness :
  exists (N : nat) (z z' : writer) (c : list byte),
    NewWriterLevel empty_sink (-1) 3 = Some (Some z, None) /\
    (forall fuel, (N <= fuel)%nat ->
                  write_members fuel z three_members = Done None z') /\
    w_out z' = ([], c) /\ streams ref_stream c (map written three_members).
Proof.
  apply (Reset_after_Close_begins_the_next_stream
           ref_stream ref_deflate_contract (-1) 3 three_members Ref.d_init).
  - lia.
  - exact plain_three_members.
  - reflexivity.
Defined.

Lemma two_members_streams :
  streams ref_stream two_members [[x61]; [x62]].
Proof.
  change two_members with ([x01; x61; x00] ++ [x01; x62; x00] ++ []).
  repeat constructor.
Qed.

Lemma Read_to_the_end_yields_every_stream_witness :
  exists (N : nat) (z : reader),
    NewReaderBuffer two_members 2 = Some (Some z, None) /\
    forall calls fuel, (N <= calls)%nat -> (N <= fuel)%nat ->
                       read_all calls fuel z 4 = Some (concat [[x61]; [x62]], EOF).
Proof.
  apply (Read_to_the_end_yields_every_stream
           ref_stream ref_inflate_contract 2 4 two_members [[x61]; [x62]] Ref.i_init).
  - lia.
  - lia.
  - reflexivity.
  - exact two_members_streams.
Defined.

Lemma round_trip_within_C_int_witness :
  exists (N : nat) (zw zw' : writer) (c : list byte) (zr : reader),
    NewWriterLevel empty_sink (-1) 3 = Some (Some zw, None) /\
    (forall fuel, (N <= fuel)%nat ->
                  write_members fuel zw three_members = Done None zw') /\
    w_out zw' = ([], c) /\
    NewReaderBuffer c 2 = Some (Some zr, None) /\
    (forall calls fuel, (N <= calls)%nat -> (N <= fuel)%nat ->
                        read_all calls fuel zr 4 =
                          Some (concat (map written three_members), EOF)).
Proof.
  apply (round_trip_within_C_int
           ref_stream ref_deflate_contract ref_inflate_contract
           (-1) 3 2 4 three_members Ref.d_init Ref.i_init).
  - lia.
  - lia.
  - lia.
  - exact plain_three_members.
  - reflexivity.
  - reflexivity.
Defined.

(** The run behind the witnesses, computed: the three streams at the sink,
    and what reading them yields. *)
Definition three_members_written : writer :=
  state_of (write_members 20 (ex_writer [] 3) three_members).

Example three_members_run :
  write_members 20 (ex_writer [] 3) three_members =
    Done None three_members_written /\
  snd (w_out three_members_written) =
    (Ref.enc (firstn 5 hello_world) ++ [Ref.tag_sync] ++
     Ref.enc (skipn 5 hello_world) ++ [Ref.tag_end]) ++
    [Ref.tag_end] ++
    (Ref.enc (abcd ++ efgh) ++ [Ref.tag_end]) /\
  read_all 20 20 (ex_reader (snd (w_out three_members_written)) 2) 4 =
    Some (hello_world ++ abcd ++ efgh, EOF).
Proof.
  split; [vm_compute; reflexivity |].
  split; vm_compute; reflexivity.
Qed.

End WholeStreamsOnTheReferenceEngine.
